(** * Flow editing state machine and step-kind catalog of syndesis-ui

    A shallow embedding of
    - [src/app/integrations/edit-page/current-flow.service.ts]
      (class [CurrentFlow]: positional queries and the command handler
      [handleEvent]), and
    - [src/app/store/step/step.store.ts] (the visibility predicate of the
      Data Mapper step kind),
    followed by the properties of the editor that are checked against them.

    Layout: JavaScript values and the JSON round trip; arrays with holes;
    the document types; the state of the service and a small state/exception
    monad; the queries; the command handler; the catalog predicate; then
    the lemmas and theorems. *)

From Stdlib Require Import ZArith Lia Ascii String.
From stdpp Require Import base list strings pretty.

Open Scope Z_scope.

#[local] Set Warnings "-register-all".

(* ================================================================== *)
(** * JavaScript values *)
(* ================================================================== *)

Module Js.

(** Numbers.  A finite number is represented by its integer value (the
    positions, counts and property values the editor handles); the three
    non-finite doubles are kept apart because [JSON.stringify] treats them
    differently. *)
Inductive JsNumber :=
| Finite (z : Z)
| NaN
| PosInfinity
| NegInfinity.

(** The values a property payload ([any]) ranges over: [undefined], and
    the plain data a JSON text can describe.  An object is the list of its
    own enumerable properties in enumeration order. *)
Inductive JsVal :=
| JUndefined
| JNull
| JBool (b : bool)
| JNum (n : JsNumber)
| JStr (s : string)
| JArr (elems : list JsVal)
| JObj (props : list (string * JsVal)).

#[global] Instance JsNumber_eq_dec : EqDecision JsNumber.
Proof. solve_decision. Defined.

(** [typeof v]. *)
Definition typeof (v : JsVal) : string :=
  match v with
  | JUndefined => "undefined"
  | JNull => "object"
  | JBool _ => "boolean"
  | JNum _ => "number"
  | JStr _ => "string"
  | JArr _ => "object"
  | JObj _ => "object"
  end.

(** [ToBoolean v], the test behind [!v], [v && w] and [v || w]. *)
Definition truthy (v : JsVal) : bool :=
  match v with
  | JUndefined | JNull => false
  | JBool b => b
  | JNum (Finite z) => negb (z =? 0)
  | JNum NaN => false
  | JNum _ => true
  | JStr s => negb (String.eqb s "")
  | JArr _ | JObj _ => true
  end.

(** ** [JSON.stringify] *)

Definition dquote : ascii := Ascii.ascii_of_nat 34.
Definition backslash : ascii := Ascii.ascii_of_nat 92.

Definition hex_digit (n : nat) : ascii :=
  Ascii.ascii_of_nat (if (n <? 10)%nat then 48 + n else 87 + n)%nat.

(** One character of a quoted JSON string (QuoteJSONString). *)
Definition escape_char (c : ascii) : string :=
  let n := Ascii.nat_of_ascii c in
  if (n =? 8)%nat then String backslash "b"
  else if (n =? 9)%nat then String backslash "t"
  else if (n =? 10)%nat then String backslash "n"
  else if (n =? 12)%nat then String backslash "f"
  else if (n =? 13)%nat then String backslash "r"
  else if (n =? 34)%nat then String backslash (String dquote "")
  else if (n =? 92)%nat then String backslash (String backslash "")
  else if (n <? 32)%nat then
    String backslash
      ("u00" +:+ String (hex_digit (n / 16)) (String (hex_digit (n mod 16)) ""))
  else String c "".

Fixpoint escape (s : string) : string :=
  match s with
  | EmptyString => EmptyString
  | String c s' => escape_char c +:+ escape s'
  end.

Definition quote (s : string) : string :=
  String dquote (escape s +:+ String dquote "").

(** Text of a number: the decimal digits of a finite number (as
    [Number.prototype.toString] writes integers below [10^21]); the
    non-finite ones are serialized as [null]. *)
Definition number_text (n : JsNumber) : string :=
  match n with
  | Finite z => pretty z
  | _ => "null"
  end.

(** [JSON.stringify v]: [None] stands for the result [undefined].  In an
    array an [undefined] element is written [null]; in an object a
    property whose value is [undefined] is left out. *)
Fixpoint JSON_stringify (v : JsVal) : option string :=
  match v with
  | JUndefined => None
  | JNull => Some "null"
  | JBool b => Some (if b then "true" else "false")
  | JNum n => Some (number_text n)
  | JStr s => Some (quote s)
  | JArr elems =>
      Some ("[" +:+ String.concat ","
                     (map (fun e => default "null" (JSON_stringify e)) elems)
                +:+ "]")
  | JObj props =>
      Some ("{" +:+ String.concat ","
                     (omap (fun kv =>
                              match JSON_stringify (snd kv) with
                              | Some t => Some (quote (fst kv) +:+ ":" +:+ t)
                              | None => None
                              end) props)
                +:+ "}")
  end.

(** ** The JSON round trip [JSON.parse(JSON.stringify(v))]

    The value the parser builds from the text the serializer wrote,
    computed on the value itself: [undefined] has no text ([None]: the
    parser is handed [undefined] and raises a SyntaxError), a non-finite
    number comes back as [null], an [undefined] array element comes back
    as [null], and an object property whose value is [undefined] is gone. *)
Fixpoint JSON_roundtrip (v : JsVal) : option JsVal :=
  match v with
  | JUndefined => None
  | JNull => Some JNull
  | JBool b => Some (JBool b)
  | JNum (Finite z) => Some (JNum (Finite z))
  | JNum _ => Some JNull
  | JStr s => Some (JStr s)
  | JArr elems =>
      Some (JArr (map (fun e => default JNull (JSON_roundtrip e)) elems))
  | JObj props =>
      Some (JObj (omap (fun kv =>
                          match JSON_roundtrip (snd kv) with
                          | Some w => Some (fst kv, w)
                          | None => None
                          end) props))
  end.

(** ** Property access *)

(** A property key: a name, or an array index (the keys ["0"], ["1"], ...
    of an array or of a string). *)
Inductive PropertyKey :=
| Name (k : string)
| Index (i : nat).

(** [Object.keys(v)]. *)
Definition Object_keys (v : JsVal) : list PropertyKey :=
  match v with
  | JObj props => map (fun kv => Name (fst kv)) props
  | JArr elems => map Index (seq 0 (length elems))
  | JStr s => map Index (seq 0 (String.length s))
  | _ => []
  end.

(** Lookup of a named property among the own properties of an object. *)
Fixpoint obj_get (props : list (string * JsVal)) (k : string) : option JsVal :=
  match props with
  | [] => None
  | (k', v) :: rest => if String.eqb k' k then Some v else obj_get rest k
  end.

(** [o[k] = x] on the own properties of an object: an existing property
    keeps its place, a new one is added last. *)
Fixpoint obj_set (props : list (string * JsVal)) (k : string) (x : JsVal)
  : list (string * JsVal) :=
  match props with
  | [] => [(k, x)]
  | (k', v) :: rest =>
      if String.eqb k' k then (k', x) :: rest else (k', v) :: obj_set rest k x
  end.

(** [v[key]]. *)
Definition get_property (v : JsVal) (key : PropertyKey) : JsVal :=
  match v, key with
  | JObj props, Name k => default JUndefined (obj_get props k)
  | JArr elems, Index i => default JUndefined (elems !! i)
  | JStr s, Index i =>
      match String.get i s with
      | Some c => JStr (String c "")
      | None => JUndefined
      end
  | _, _ => JUndefined
  end.

(** [v[key] = x] for a key returned by [Object_keys v].  Only objects and
    arrays are written to: every character of a string has type
    ['string'], and booleans and numbers have no keys. *)
Definition set_property (v : JsVal) (key : PropertyKey) (x : JsVal) : JsVal :=
  match v, key with
  | JObj props, Name k => JObj (obj_set props k x)
  | JArr elems, Index i => JArr (<[i := x]> elems)
  | _, _ => v
  end.

(** ** Strict equality against a primitive

    [x === p] where [p] is a primitive ([undefined], [null], a boolean, a
    number or a string): primitives are compared by value, [NaN] equals
    nothing, and an object or array is never equal to a primitive. *)
Definition strict_equals (x p : JsVal) : bool :=
  match x, p with
  | JUndefined, JUndefined => true
  | JNull, JNull => true
  | JBool a, JBool b => Bool.eqb a b
  | JNum NaN, _ | _, JNum NaN => false
  | JNum a, JNum b => bool_decide (a = b)
  | JStr a, JStr b => String.eqb a b
  | _, _ => false
  end.

(** [arr.indexOf(p) === -1] on a dense array, for a primitive [p]. *)
Definition not_found (arr : list JsVal) (p : JsVal) : bool :=
  forallb (fun x => negb (strict_equals x p)) arr.

(** A possibly missing string read as a value. *)
Definition of_string (o : option string) : JsVal :=
  match o with
  | Some s => JStr s
  | None => JUndefined
  end.

End Js.

Import Js.

(* ================================================================== *)
(** * Arrays *)
(* ================================================================== *)

(** A JavaScript array of [A]: the list of its slots up to [length];
    [None] is a hole (an index that was never assigned), which reads as
    [undefined] and is skipped by [filter], [map] and [forEach]. *)
Abbreviation JsArray A := (list (option A)).

Module Arr.
Section Ops.
Context {A : Type}.

(** [arr[i]]; a hole, an index past the end and a negative index all
    read as [undefined]. *)
Definition get (arr : JsArray A) (i : Z) : option A :=
  if i <? 0 then None else mjoin (arr !! Z.to_nat i).

(** [arr[i] = x].  Past the end the array grows, leaving holes in
    between.  A negative [i] names an ordinary property, not an element:
    the slots are unchanged. *)
Definition set (arr : JsArray A) (i : Z) (x : A) : JsArray A :=
  if i <? 0 then arr
  else
    let n := Z.to_nat i in
    if (n <? length arr)%nat then <[n := Some x]> arr
    else arr ++ replicate (n - length arr) None ++ [Some x].

(** A relative index of [splice] and [slice]: counted from the end when
    negative, then clamped to [0 .. len]. *)
Definition clamp (len : nat) (k : Z) : nat :=
  if k <? 0 then Z.to_nat (Z.max (Z.of_nat len + k) 0)
  else Z.to_nat (Z.min k (Z.of_nat len)).

(** [arr.splice(start, deleteCount, ...items)]: the array afterwards. *)
Definition splice (arr : JsArray A) (start deleteCount : Z)
           (items : JsArray A) : JsArray A :=
  let len := length arr in
  let s := clamp len start in
  let d := Z.to_nat (Z.min (Z.max deleteCount 0) (Z.of_nat len - Z.of_nat s)) in
  take s arr ++ items ++ drop (s + d) arr.

(** [arr.slice(start, end)]. *)
Definition slice (arr : JsArray A) (start end_ : Z) : JsArray A :=
  let len := length arr in
  let k := clamp len start in
  let final := clamp len end_ in
  take (final - k) (drop k arr).

(** [arr.slice(start)]. *)
Definition slice_from (arr : JsArray A) (start : Z) : JsArray A :=
  drop (clamp (length arr) start) arr.

(** The elements present, in order (what [filter] and [forEach] visit). *)
Definition present (arr : JsArray A) : list A := omap id arr.

(** [arr.filter(f)]: a dense array. *)
Definition filter (f : A -> bool) (arr : JsArray A) : JsArray A :=
  map Some (List.filter f (present arr)).

(** [arr.reverse()]. *)
Definition reverse (arr : JsArray A) : JsArray A := rev arr.

End Ops.
End Arr.

(* ================================================================== *)
(** * The documents *)
(* ================================================================== *)

(** The declarations of [Connection], [Action], [Step] and [Integration]
    live in [src/app/model], which is not among the sources at hand.  The
    records below carry the fields the editor and the catalog read or
    write; a field that may be absent is an [option], or [JUndefined]
    where the field holds arbitrary data. *)

(** Modelled from the spec: [Connection] of [src/app/model] is missing;
    it identifies an external system and carries the [connectorId] used
    for the tags. *)
Record Connection := {
  connectorId : option string;
}.

(** Modelled from the spec: [Action] of [src/app/model] is missing; it
    has a name and the shapes of the data it consumes and produces. *)
Record Action := {
  name : option string;
  inputDataShape : JsVal;
  outputDataShape : JsVal;
}.

(** Modelled from the spec: [Step] of [src/app/model] is missing; the
    fields are those every entry of [StepStore.steps] spells out. *)
Record Step := {
  id : option string;
  stepKind : option string;
  connection : option Connection;
  action : option Action;
  configuredProperties : JsVal;
}.

(** Modelled from the spec: [Integration] of [src/app/model] is missing;
    it has a step sequence, tags, and further own properties ([id],
    [name], [description], [configuredProperties], ...), kept by name. *)
Record Integration := {
  steps : option (JsArray Step);
  tags : option (list JsVal);
  fields : list (string * JsVal);
}.

(** Modelled from the spec: [TypeFactory.createStep()] of [src/app/model]
    is missing; it returns a new blank step, every field unset. *)
Definition createStep : Step :=
  {| id := None; stepKind := None; connection := None; action := None;
     configuredProperties := JUndefined |}.

Definition with_stepKind (k : option string) (s : Step) : Step :=
  {| id := id s; stepKind := k; connection := connection s;
     action := action s; configuredProperties := configuredProperties s |}.

Definition with_connection (c : option Connection) (s : Step) : Step :=
  {| id := id s; stepKind := stepKind s; connection := c;
     action := action s; configuredProperties := configuredProperties s |}.

Definition with_action (a : option Action) (s : Step) : Step :=
  {| id := id s; stepKind := stepKind s; connection := connection s;
     action := a; configuredProperties := configuredProperties s |}.

Definition with_configuredProperties (p : JsVal) (s : Step) : Step :=
  {| id := id s; stepKind := stepKind s; connection := connection s;
     action := action s; configuredProperties := p |}.

Definition with_steps (l : option (JsArray Step)) (i : Integration) : Integration :=
  {| steps := l; tags := tags i; fields := fields i |}.

Definition with_tags (t : option (list JsVal)) (i : Integration) : Integration :=
  {| steps := steps i; tags := t; fields := fields i |}.

Definition with_field (k : string) (v : JsVal) (i : Integration) : Integration :=
  {| steps := steps i; tags := tags i; fields := obj_set (fields i) k v |}.

(** [s.stepKind === 'endpoint']. *)
Definition is_endpoint (s : Step) : bool :=
  match stepKind s with
  | Some k => String.eqb k "endpoint"
  | None => false
  end.

(** ** Structural copy of a document through JSON

    [JSON.parse(JSON.stringify(d))] on the typed documents: strings
    survive, arbitrary data goes through [JSON_roundtrip] (a property that
    serializes to nothing is absent from the copy), and a hole of the step
    array comes back as a [null] entry, for which the copy's array also
    uses [None]. *)

Definition clone_value (v : JsVal) : JsVal :=
  default JUndefined (JSON_roundtrip v).

Definition clone_action (a : Action) : Action :=
  {| name := name a;
     inputDataShape := clone_value (inputDataShape a);
     outputDataShape := clone_value (outputDataShape a) |}.

Definition clone_step (s : Step) : Step :=
  {| id := id s; stepKind := stepKind s; connection := connection s;
     action := option_map clone_action (action s);
     configuredProperties := clone_value (configuredProperties s) |}.

Definition clone_fields (props : list (string * JsVal)) : list (string * JsVal) :=
  omap (fun kv => match JSON_roundtrip (snd kv) with
                  | Some w => Some (fst kv, w)
                  | None => None
                  end) props.

Definition clone_integration (i : Integration) : Integration :=
  {| steps := option_map (map (option_map clone_step)) (steps i);
     tags := option_map (map (fun t => default JNull (JSON_roundtrip t))) (tags i);
     fields := clone_fields (fields i) |}.

(* ================================================================== *)
(** * The service state and its monad *)
(* ================================================================== *)

(** A reference to an [Integration] object: the one [_integration] points
    to, or one allocated later (the copies made for saving). *)
Inductive IntegrationRef :=
| Owned
| Detached (n : nat).

(** The state a command acts on: the fields of [CurrentFlow], the
    [Integration] objects allocated besides the owned one, and the
    requests handed to the [IntegrationStore], oldest first. *)
Record CurrentFlow := {
  _integration : option Integration;
  _loaded : bool;
  heap : list Integration;
  store : list IntegrationRef;
}.

Inductive JsError :=
| TypeError (msg : string)
| SyntaxError (msg : string)
| Raised (reason : JsVal).

(** The completion of a statement or call: a value, or a thrown error. *)
Inductive Completion (A : Type) :=
| Normal (a : A)
| Throw (e : JsError).
Arguments Normal {A} a.
Arguments Throw {A} e.

(** A computation of the service: it reads and writes the state and
    completes normally or by throwing.  Writes made before a throw stay. *)
Definition M (A : Type) := CurrentFlow -> Completion A * CurrentFlow.

Definition ret {A} (a : A) : M A := fun s => (Normal a, s).

Definition bind {A B} (k : A -> M B) (m : M A) : M B :=
  fun s => match m s with
           | (Normal a, s') => k a s'
           | (Throw e, s') => (Throw e, s')
           end.

Definition throw {A} (e : JsError) : M A := fun s => (Throw e, s).

Definition lift {A} (c : Completion A) : M A := fun s => (c, s).

(** Sequencing is written [x ← m; k] and [m;; k]. *)
#[global] Instance M_ret : MRet M := @ret.
#[global] Instance M_bind : MBind M := @bind.

Definition set_owned (d : Integration) (s : CurrentFlow) : CurrentFlow :=
  {| _integration := Some d; _loaded := _loaded s; heap := heap s;
     store := store s |}.

Definition set_loaded (b : bool) (s : CurrentFlow) : CurrentFlow :=
  {| _integration := _integration s; _loaded := b; heap := heap s;
     store := store s |}.

Definition set_heap (h : list Integration) (s : CurrentFlow) : CurrentFlow :=
  {| _integration := _integration s; _loaded := _loaded s; heap := h;
     store := store s |}.

Definition set_store (q : list IntegrationRef) (s : CurrentFlow) : CurrentFlow :=
  {| _integration := _integration s; _loaded := _loaded s; heap := heap s;
     store := q |}.

(** The object a reference points to. *)
Definition deref (r : IntegrationRef) (s : CurrentFlow) : option Integration :=
  match r with
  | Owned => _integration s
  | Detached n => heap s !! n
  end.

(** Reading through a reference.  A reference is only ever obtained from
    the [integration] getter or from an allocation, so the last case does
    not arise in a run of the service. *)
Definition read (r : IntegrationRef) : M Integration :=
  fun s => match deref r s with
           | Some d => (Normal d, s)
           | None => (Throw (TypeError "stale reference"), s)
           end.

(** In-place update of the object a reference points to. *)
Definition update (r : IntegrationRef) (f : Integration -> Integration) : M unit :=
  fun s => match r with
           | Owned =>
               match _integration s with
               | Some d => (Normal tt, set_owned (f d) s)
               | None => (Throw (TypeError "stale reference"), s)
               end
           | Detached n =>
               match heap s !! n with
               | Some d => (Normal tt, set_heap (<[n := f d]> (heap s)) s)
               | None => (Throw (TypeError "stale reference"), s)
               end
           end.

(** Allocation of a new object. *)
Definition alloc (d : Integration) : M IntegrationRef :=
  fun s => (Normal (Detached (length (heap s))), set_heap (heap s ++ [d]) s).

(* ================================================================== *)
(** * [CurrentFlow]: property normalization *)
(* ================================================================== *)

(** One iteration of the loop of [stringifyValues], for the key [key]:
    a value of type ['string'] or ['number'] is skipped, any other value
    is replaced by its serialization. *)
Definition stringify_at (props : JsVal) (key : PropertyKey) : JsVal :=
  let value := get_property props key in
  if String.eqb (typeof value) "string" || String.eqb (typeof value) "number"
  then props
  else set_property props key (of_string (JSON_stringify value)).

(** [stringifyValues(_props)].  The loop runs over the keys of the copy,
    taken once before the first iteration. *)
Definition stringifyValues (_props : JsVal) : Completion JsVal :=
  if negb (truthy _props) then Normal _props
  else
    match JSON_roundtrip _props with
    | None => Throw (SyntaxError "JSON.parse: unexpected token")
    | Some props => Normal (foldl stringify_at props (Object_keys props))
    end.

(* ================================================================== *)
(** * [CurrentFlow]: accessors and positional queries *)
(* ================================================================== *)

(** [get integration()]. *)
Definition get_integration : M (option IntegrationRef) :=
  fun s => match _integration s with
           | None => (Normal None, s)
           | Some _ => (Normal (Some Owned), s)
           end.

(** [get steps()]: [undefined] without an integration; otherwise the step
    array of the owned document, which is first set to [[]] when missing. *)
Definition get_steps : M (option (JsArray Step)) :=
  fun s => match _integration s with
           | None => (Normal None, s)
           | Some d =>
               match steps d with
               | None => (Normal (Some []), set_owned (with_steps (Some []) d) s)
               | Some l => (Normal (Some l), s)
               end
           end.

(** [this.steps.length]. *)
Definition steps_length : M Z :=
  arr ← get_steps;
  match arr with
  | None => throw (TypeError "Cannot read property 'length' of undefined")
  | Some l => mret (Z.of_nat (length l))
  end.

(** A statement that changes the array [this.steps] in place
    ([this.steps.splice(..)], [this.steps[i] = ..]). *)
Definition mutate_steps (f : JsArray Step -> JsArray Step) : M unit :=
  arr ← get_steps;
  match arr with
  | None => throw (TypeError "Cannot read property of undefined")
  | Some l => update Owned (with_steps (Some (f l)))
  end.

(** [getFirstPosition()]; [None] is the result [undefined]. *)
Definition getFirstPosition : M (option Z) :=
  i ← get_integration;
  match i with
  | None => mret None
  | Some _ => mret (Some 0)
  end.

(** [getLastPosition()]; [this.steps.length] is read for the test and
    again for the result. *)
Definition getLastPosition : M (option Z) :=
  i ← get_integration;
  match i with
  | None => mret None
  | Some _ =>
      n ← steps_length;
      if n <=? 1 then mret (Some 1)
      else n' ← steps_length; mret (Some (n' - 1))
  end.

(** [Math.round(last / 2)] on an integer [last]: halves round up. *)
Definition getMiddlePosition : M (option Z) :=
  last ← getLastPosition;
  match last with
  | Some l => mret (Some ((l + 1) / 2))
  | None => mret None
  end.

(** [getStep(position)]; the position is [undefined] when it comes from a
    query that found no integration. *)
Definition getStep (position : option Z) : M (option Step) :=
  i ← get_integration;
  match i with
  | None => mret None
  | Some _ =>
      arr ← get_steps;
      match arr, position with
      | None, _ => throw (TypeError "Cannot read property of undefined")
      | Some l, Some p => mret (Arr.get l p)
      | Some l, None => mret None
      end
  end.

Definition getStartStep : M (option Step) :=
  first ← getFirstPosition; getStep first.

(** [getEndStep()]; [undefined < 1] is false. *)
Definition getEndStep : M (option Step) :=
  lastPosition ← getLastPosition;
  match lastPosition with
  | Some l => if l <? 1 then mret None else getStep lastPosition
  | None => getStep lastPosition
  end.

Definition getStartConnection : M (option Connection) :=
  step ← getStartStep;
  match step with
  | Some st => mret (connection st)
  | None => mret None
  end.

Definition getEndConnection : M (option Connection) :=
  step ← getEndStep;
  match step with
  | Some st => mret (connection st)
  | None => mret None
  end.

(** [getMiddleSteps()]; [undefined < 2] is false, so without an
    integration the second test answers. *)
Definition getMiddleSteps : M (JsArray Step) :=
  last ← getLastPosition;
  if match last with Some l => l <? 2 | None => false end then mret []
  else
    arr ← get_steps;
    match arr with
    | None => mret []
    | Some _ =>
        arr' ← get_steps;
        match arr' with
        | None => throw (TypeError "Cannot read property 'slice' of undefined")
        | Some l => mret (Arr.slice l 1 (-1))
        end
    end.

(** [getSubsequentSteps(position)]; it reads [this._integration] itself,
    with the same initialization of a missing step array as the getter. *)
Definition getSubsequentSteps (position : Z) : M (option (JsArray Step)) :=
  fun s => match _integration s with
           | None => (Normal None, s)
           | Some d =>
               match steps d with
               | None =>
                   (Normal (Some (Arr.slice_from [] position)),
                    set_owned (with_steps (Some []) d) s)
               | Some l => (Normal (Some (Arr.slice_from l position)), s)
               end
           end.

(** [getSubsequentConnections(position)]; [None] is the result [null]. *)
Definition getSubsequentConnections (position : Z) : M (option (JsArray Step)) :=
  answer ← getSubsequentSteps position;
  match answer with
  | Some a => mret (Some (Arr.filter is_endpoint a))
  | None => mret None
  end.

Definition getPreviousSteps (position : Z) : M (option (JsArray Step)) :=
  fun s => match _integration s with
           | None => (Normal None, s)
           | Some d =>
               match steps d with
               | None =>
                   (Normal (Some (Arr.slice [] 0 position)),
                    set_owned (with_steps (Some []) d) s)
               | Some l => (Normal (Some (Arr.slice l 0 position)), s)
               end
           end.

(** [getPreviousConnections(position)]; [None] is the result [null]. *)
Definition getPreviousConnections (position : Z) : M (option (JsArray Step)) :=
  answer ← getPreviousSteps position;
  match answer with
  | Some a => mret (Some (Arr.filter is_endpoint a))
  | None => mret None
  end.

(** [getPreviousConnection(position)]: [.reverse()] is called on whatever
    [getPreviousConnections] returned. *)
Definition getPreviousConnection (position : Z) : M (option Step) :=
  answer ← getPreviousConnections position;
  match answer with
  | None => throw (TypeError "Cannot read property 'reverse' of null")
  | Some a => let connections := Arr.reverse a in mret (Arr.get connections 0)
  end.

(** [getSubsequentConnection(position)]: element [0] of whatever
    [getSubsequentConnections] returned. *)
Definition getSubsequentConnection (position : Z) : M (option Step) :=
  connections ← getSubsequentConnections position;
  match connections with
  | None => throw (TypeError "Cannot read property '0' of null")
  | Some a => mret (Arr.get a 0)
  end.

Definition isEmpty : M bool :=
  i ← get_integration;
  match i with
  | None => mret true
  | Some _ => n ← steps_length; mret (n =? 0)
  end.

Definition atEnd (position : Z) : M bool :=
  i ← get_integration;
  match i with
  | None => mret true
  | Some _ => n ← steps_length; mret (n <=? position)
  end.

(** [getIntegrationClone()]: a new object.  Without an integration
    [JSON.stringify] yields [undefined], which [JSON.parse] rejects. *)
Definition getIntegrationClone : M IntegrationRef :=
  i ← get_integration;
  match i with
  | None => throw (SyntaxError "JSON.parse: unexpected token")
  | Some r => d ← read r; alloc (clone_integration d)
  end.

(* ================================================================== *)
(** * [CurrentFlow]: the command handler *)
(* ================================================================== *)

(** A continuation supplied with a command ([onSave]): a function called
    with no argument, free to act on the service. *)
Definition Callback := M unit.

(** The [property]/[value] pair of [integration-set-property].  The step
    sequence and the tags have their own representation in
    [Integration], so an assignment to one of them carries a value of that
    representation; [AssignField] is for every other property name. *)
Inductive PropertyAssignment :=
| AssignSteps (value : option (JsArray Step))
| AssignTags (value : option (list JsVal))
| AssignField (property : string) (value : JsVal).

Definition assigned_property (a : PropertyAssignment) : string :=
  match a with
  | AssignSteps _ => "steps"
  | AssignTags _ => "tags"
  | AssignField property _ => property
  end.

(** [this._integration[property] = value]. *)
Definition assign (a : PropertyAssignment) (d : Integration) : Integration :=
  match a with
  | AssignSteps value => with_steps value d
  | AssignTags value => with_tags value d
  | AssignField property value => with_field property value d
  end.

(** The commands, by [kind], with the payload fields each one reads;
    [position] is the payload after the coercion [+event['position']],
    taken to be an integer. *)
Inductive FlowEvent :=
| IntegrationUpdated
| IntegrationInsertStep (position : Z) (onSave : option Callback)
| IntegrationInsertConnection (position : Z) (onSave : option Callback)
| IntegrationRemoveStep (position : Z) (onSave : option Callback)
| IntegrationSetStep (position : Z) (step : Step) (onSave : option Callback)
| IntegrationSetProperties (position : Z) (properties : JsVal)
                           (onSave : option Callback)
| IntegrationSetAction (position : Z) (action : option Action)
                       (onSave : option Callback)
| IntegrationSetConnection (position : Z) (connection : option Connection)
                           (onSave : option Callback)
| IntegrationSetProperty (assignment : PropertyAssignment)
                         (onSave : option Callback)
| IntegrationSave (action : option (Integration -> Callback))
                  (error : option (JsVal -> Callback))
| OtherKind (kind : string).

(** [maybeDoAction(thing)]: [None] is a payload that is missing or not a
    function. *)
Definition maybeDoAction (thing : option Callback) : M unit :=
  match thing with
  | Some f => f
  | None => mret tt
  end.

Definition insertStepAfter (position : Z) : M unit :=
  let target := position + 1 in
  let step := createStep in
  mutate_steps (fun arr => Arr.splice arr target 0 [Some step]).

Definition insertConnectionAfter (position : Z) : M unit :=
  let target := position + 1 in
  let step := createStep in
  let step := with_stepKind (Some "endpoint") step in
  mutate_steps (fun arr => Arr.splice arr target 0 [Some step]).

(** [arr.map(f)] with a callback that may throw: holes are skipped and
    stay holes; the first throw ends the traversal. *)
Fixpoint array_map {A B} (f : A -> Completion B) (arr : JsArray A)
  : Completion (JsArray B) :=
  match arr with
  | [] => Normal []
  | None :: rest =>
      match array_map f rest with
      | Normal out => Normal (None :: out)
      | Throw e => Throw e
      end
  | Some a :: rest =>
      match f a with
      | Throw e => Throw e
      | Normal b =>
          match array_map f rest with
          | Normal out => Normal (Some b :: out)
          | Throw e => Throw e
          end
      end
  end.

(** [step.connection.connectorId]. *)
Definition connectorId_of (step : Step) : Completion JsVal :=
  match connection step with
  | None => Throw (TypeError "Cannot read property 'connectorId' of undefined")
  | Some c => Normal (of_string (connectorId c))
  end.

(** [tags.indexOf(id) === -1 ? tags.push(id) : false]. *)
Definition merge_tag (tags : list JsVal) (id : JsVal) : list JsVal :=
  if not_found tags id then tags ++ [id] else tags.

(** [connectorIds.forEach(..)] over the tags. *)
Definition merge_tags (tags : list JsVal) (connectorIds : JsArray JsVal)
  : list JsVal :=
  foldl merge_tag tags (Arr.present connectorIds).

(** [this.store.updateOrCreate(integration)]: the request reaches the
    store; its answer arrives in a later turn. *)
Definition updateOrCreate (integration : IntegrationRef) : M unit :=
  fun s => (Normal tt, set_store (store s ++ [integration]) s).

(** The synchronous part of [handleEvent(event)].  Logging is left out,
    and so is the timer that [integration-updated] starts. *)
Definition handleEvent (event : FlowEvent) : M unit :=
  match event with
  | IntegrationUpdated =>
      fun s => (Normal tt, set_loaded true s)
  | IntegrationInsertStep position onSave =>
      insertStepAfter position;;
      maybeDoAction onSave
  | IntegrationInsertConnection position onSave =>
      insertConnectionAfter position;;
      maybeDoAction onSave
  | IntegrationRemoveStep position onSave =>
      first ← getFirstPosition;
      boundary ← (if bool_decide (first = Some position) then mret true
                  else last ← getLastPosition;
                       mret (bool_decide (last = Some position)));
      (if boundary : bool then
         mutate_steps (fun arr =>
           Arr.set arr position (with_stepKind (Some "endpoint") createStep))
       else
         mutate_steps (fun arr => Arr.splice arr position 1 []));;
      maybeDoAction onSave
  | IntegrationSetStep position step onSave =>
      mutate_steps (fun arr =>
        Arr.set arr position (with_stepKind (stepKind step) createStep));;
      maybeDoAction onSave
  | IntegrationSetProperties position properties onSave =>
      properties' ← lift (stringifyValues properties);
      mutate_steps (fun arr =>
        let step := default createStep (Arr.get arr position) in
        Arr.set arr position (with_configuredProperties properties' step));;
      maybeDoAction onSave
  | IntegrationSetAction position action onSave =>
      mutate_steps (fun arr =>
        let step := default createStep (Arr.get arr position) in
        Arr.set arr position
          (with_stepKind (Some "endpoint") (with_action action step)));;
      maybeDoAction onSave
  | IntegrationSetConnection position connection onSave =>
      mutate_steps (fun arr =>
        Arr.set arr position
          (with_connection connection
             (with_stepKind (Some "endpoint") createStep)));;
      maybeDoAction onSave
  | IntegrationSetProperty assignment onSave =>
      let property := assigned_property assignment in
      value ← (match assignment with
               | AssignField _ value =>
                   if String.eqb property "configuredProperties"
                   then lift (stringifyValues value)
                   else mret value
               | _ => mret JUndefined
               end);
      (fun s => match _integration s with
                | None =>
                    (Throw (TypeError "Cannot set property of undefined"), s)
                | Some d => (Normal tt, set_owned (assign assignment d) s)
                end);;
      maybeDoAction onSave
  | IntegrationSave _ _ =>
      integration ← getIntegrationClone;
      d ← read integration;
      let tags := default [] (tags d) in
      connections ← getSubsequentConnections 0;
      connectorIds ←
        match connections with
        | None => throw (TypeError "Cannot read property 'map' of null")
        | Some arr => lift (array_map connectorId_of arr)
        end;
      let tags := merge_tags tags connectorIds in
      update integration (with_tags (Some tags));;
      updateOrCreate integration
  | OtherKind _ => mret tt
  end.

(** [set integration(i)]: the flag is reset and the object adopted; a
    non-empty step array is replaced by its filtered version, which is
    dense.  The timer that later emits [integration-updated] is left out. *)
Definition set_integration (i : option Integration) : M unit :=
  fun s =>
    let i' :=
      match i with
      | Some d =>
          match steps d with
          | Some ((_ :: _) as arr) =>
              Some (with_steps (Some (Arr.filter (fun _ => true) arr)) d)
          | _ => Some d
          end
      | None => None
      end in
    (Normal tt,
     {| _integration := i'; _loaded := false; heap := heap s; store := store s |}).

(** The later turn in which the store answers a save: exactly one of the
    two continuations of the command is called, when it is a function. *)
Definition save_answered (event : FlowEvent) (answer : Integration + JsVal)
  : M unit :=
  match event, answer with
  | IntegrationSave (Some action) _, inl i => action i
  | IntegrationSave _ (Some errorAction), inr reason => errorAction reason
  | _, _ => mret tt
  end.

(* ================================================================== *)
(** * [StepStore]: the Data Mapper visibility predicate *)
(* ================================================================== *)

(** [s.action && s.action.outputDataShape], read as a condition. *)
Definition has_output_shape (s : Step) : bool :=
  match action s with
  | Some a => truthy (outputDataShape a)
  | None => false
  end.

(** [s.action && s.action.inputDataShape], read as a condition. *)
Definition has_input_shape (s : Step) : bool :=
  match action s with
  | Some a => truthy (inputDataShape a)
  | None => false
  end.

(** [visible(position, previous, subsequent)] of the first entry of
    [StepStore.steps] ([stepKind: DATA_MAPPER]). *)
Definition visible (position : Z) (previous subsequent : JsArray Step) : bool :=
  let prev := Arr.filter has_output_shape previous in
  if (length prev =? 0)%nat then false
  else
    let subs := Arr.filter has_input_shape subsequent in
    if (length subs =? 0)%nat then false
    else true.

(* ================================================================== *)
(** * [CurrentFlow]: validity *)
(* ================================================================== *)

(** [v.length] for a value [v]: the length of a string or an array, the
    property of that name of an object, [undefined] on a boolean or a
    number, a TypeError on [undefined] and [null]. *)
Definition length_of (v : JsVal) : Completion JsVal :=
  match v with
  | JUndefined | JNull =>
      Throw (TypeError "Cannot read property 'length' of undefined")
  | JStr s => Normal (JNum (Finite (Z.of_nat (String.length s))))
  | JArr elems => Normal (JNum (Finite (Z.of_nat (length elems))))
  | JObj props => Normal (default JUndefined (obj_get props "length"))
  | JBool _ | JNum _ => Normal JUndefined
  end.

(** [this.integration.name]. *)
Definition integration_name : M JsVal :=
  i ← get_integration;
  match i with
  | None => throw (TypeError "Cannot read property 'name' of undefined")
  | Some r => d ← read r; mret (default JUndefined (obj_get (fields d) "name"))
  end.

(** [isValid()]: the value of
    [this.integration.name && this.integration.name.length]. *)
Definition isValid : M JsVal :=
  name ← integration_name;
  if truthy name then name' ← integration_name; lift (length_of name')
  else mret name.

(* ================================================================== *)
(** * [StepStore]: the catalog *)
(* ================================================================== *)

Definition DATA_MAPPER : string := "mapper".
Definition BASIC_FILTER : string := "rule-filter".
Definition ADVANCED_FILTER : string := "filter".

(** The predicate of the Data Mapper entry, under the name it has below. *)
Definition data_mapper_visible : Z -> JsArray Step -> JsArray Step -> bool :=
  visible.

Module StepStore.

(** [interface StepKind extends Step]: the fields of a step ([base]) and
    those the interface adds; [visible] is optional. *)
Record StepKind := {
  base : Step;
  name : string;
  description : string;
  properties : JsVal;
  visible : option (Z -> JsArray Step -> JsArray Step -> bool);
}.

(** The class [StepStore]: its one field. *)
Record t := {
  steps : list StepKind;
}.

(** A catalog entry as the source spells it: [id], [connection], [action]
    and [configuredProperties] are [undefined]. *)
Definition entry (kind name description : string) (properties : JsVal)
           (visible : option (Z -> JsArray Step -> JsArray Step -> bool))
  : StepKind :=
  {| base := {| id := None; stepKind := Some kind; connection := None;
                action := None; configuredProperties := JUndefined |};
     name := name; description := description;
     properties := properties; visible := visible |}.

(** The initial value of [steps]: the three entries that are not
    commented out. *)
Definition new : t :=
  {| steps :=
       [ entry DATA_MAPPER "Data Mapper"
           "Map fields from the input type to the output type"
           (JObj []) (Some data_mapper_visible);
         entry BASIC_FILTER "Basic Filter"
           ("Continue the integration only if criteria you specify in simple input fields are met. Suitable for"
            +:+ " most integrations.")
           JUndefined None;
         entry ADVANCED_FILTER "Advanced Filter"
           "Continue the integration only if criteria you define in scripting language expressions are met."
           (JObj [("filter",
                   JObj [("type", JStr "textarea");
                         ("displayName", JStr "Only continue if");
                         ("required", JBool true);
                         ("rows", JNum (Finite 10))])])
           None ] |}.

(** [step.stepKind === kind]. *)
Definition has_kind (kind : string) (step : StepKind) : bool :=
  bool_decide (stepKind (base step) = Some kind).

(** [getStepConfig(kind)]: [this.steps.find(..)]. *)
Definition getStepConfig (this : t) (kind : string) : option StepKind :=
  List.find (has_kind kind) (steps this).

(** [getStepName(kind)]. *)
Definition getStepName (this : t) (kind : string) : string :=
  match getStepConfig this kind with
  | Some step => name step
  | None => kind
  end.

(** [getStepDescription(kind)]. *)
Definition getStepDescription (this : t) (kind : string) : string :=
  match getStepConfig this kind with
  | Some step => description step
  | None => ""
  end.

(** [getSteps()]. *)
Definition getSteps (this : t) : list StepKind := steps this.

(** [isCustomStep(step)]. *)
Definition isCustomStep (step : Step) : bool :=
  bool_decide (stepKind step = Some BASIC_FILTER)
  || bool_decide (stepKind step = Some DATA_MAPPER).

End StepStore.

(* ================================================================== *)
(** * Vocabulary of the statements *)
(* ================================================================== *)

(** The step sequence of a document, a missing one read as empty. *)
Definition steps_of (d : Integration) : JsArray Step := default [] (steps d).

(** The state once [this.steps] has been read: a missing step array of
    the owned document has become [[]]. *)
Definition touched (s : CurrentFlow) : CurrentFlow :=
  match _integration s with
  | Some d =>
      match steps d with
      | None => set_owned (with_steps (Some []) d) s
      | Some _ => s
      end
  | None => s
  end.

(** The blank endpoint placeholder. *)
Definition blank_endpoint : Step := with_stepKind (Some "endpoint") createStep.

(** The step array after [integration-remove-step] at [position]: the
    two branches of the handler, with the value of [getLastPosition()]
    written out. *)
Definition removed (arr : JsArray Step) (position : Z) : JsArray Step :=
  let n := Z.of_nat (length arr) in
  let last := if n <=? 1 then 1 else n - 1 in
  if bool_decide (position = 0 \/ position = last)
  then Arr.set arr position blank_endpoint
  else Arr.splice arr position 1 [].

(** Number of entries of [tags] that are strictly equal to [p]. *)
Definition occurrences (tags : list JsVal) (p : JsVal) : nat :=
  length (List.filter (fun x => strict_equals x p) tags).

(** The connector ids the save handler collects, one per endpoint step of
    the flow; the collection throws at an endpoint step without a
    connection. *)
Definition flow_connectorIds (d : Integration) : Completion (JsArray JsVal) :=
  array_map connectorId_of (Arr.filter is_endpoint (steps_of d)).

(** The tags of the copy before the merge. *)
Definition copied_tags (d : Integration) : list JsVal :=
  default [] (tags (clone_integration d)).

(** The copy handed to the store once the connector ids [ids] have been
    merged into its tags. *)
Definition saved_copy (d : Integration) (ids : JsArray JsVal) : Integration :=
  with_tags (Some (merge_tags (copied_tags d) ids)) (clone_integration d).

(** The values a connector id can take: a string, or [undefined] when the
    connection has none. *)
Definition is_connectorId (v : JsVal) : Prop := exists o, v = of_string o.

(** A number that is not [NaN] or an infinity. *)
Definition is_finite_number (v : JsVal) : bool :=
  match v with
  | JNum (Finite _) => true
  | _ => false
  end.

Definition is_string (v : JsVal) : bool :=
  match v with
  | JStr _ => true
  | _ => false
  end.

Definition is_number (v : JsVal) : bool :=
  match v with
  | JNum _ => true
  | _ => false
  end.

(** What the loop of [stringifyValues] leaves in place of the value [w]
    of the copy. *)
Definition normalized (w : JsVal) : JsVal :=
  if is_string w || is_number w then w else of_string (JSON_stringify w).

(** ** Sample documents and states *)

(** An endpoint step bound to a connection of connector [c]. *)
Definition endpoint_of (c : string) : Step :=
  with_connection (Some {| connectorId := Some c |}) blank_endpoint.

(** A document with the step sequence [arr], no tags and no other field. *)
Definition flow_of (arr : JsArray Step) : Integration :=
  {| steps := Some arr; tags := None; fields := [] |}.

(** The service right after the document [d] has been loaded. *)
Definition editing (d : Integration) : CurrentFlow :=
  {| _integration := Some d; _loaded := true; heap := []; store := [] |}.

(** A flow of three steps: two connected endpoints around a blank step. *)
Definition sample_flow : Integration :=
  flow_of [Some (endpoint_of "sql"); Some createStep; Some (endpoint_of "http")].

(** A flow in which two endpoints share a connector, with tags already
    set, one of them a connector id of the flow. *)
Definition tagged_flow : Integration :=
  {| steps := Some [Some (endpoint_of "sql"); Some createStep;
                    Some (endpoint_of "http"); Some (endpoint_of "sql")];
     tags := Some [JStr "nightly"; JStr "sql"];
     fields := [("name", JStr "orders")] |}.

(** The connector ids of the endpoint steps of [tagged_flow]. *)
Definition tagged_flow_ids : JsArray JsVal :=
  [Some (JStr "sql"); Some (JStr "http"); Some (JStr "sql")].

(** A flow of one step. *)
Definition single_step_flow : Integration := flow_of [Some (endpoint_of "sql")].



Definition sample_property_map : list (string * JsVal) :=
  [("count", JNum (Finite 5)); ("meta", JObj [("a", JNum (Finite 1))])].

(** The service with no integration. *)
Definition unloaded (loaded : bool) (h : list Integration)
           (q : list IntegrationRef) : CurrentFlow :=
  {| _integration := None; _loaded := loaded; heap := h; store := q |}.

(** A step with an action whose output (input) shape is resolved. *)
Definition resolved_output (s : Step) : Prop :=
  exists a, action s = Some a /\ truthy (outputDataShape a) = true.

Definition resolved_input (s : Step) : Prop :=
  exists a, action s = Some a /\ truthy (inputDataShape a) = true.

(** ** Classes of commands and shapes of flows *)


(** The commands that need an integration. *)
Definition needs_integration (event : FlowEvent) : bool :=
  match event with
  | IntegrationUpdated | OtherKind _ => false
  | _ => true
  end.

(** A flow of at least two steps whose first and last slots hold
    endpoint steps. *)
Definition bounded_by_endpoints (arr : JsArray Step) : Prop :=
  (2 <= length arr)%nat /\
  (exists a, arr !! 0%nat = Some (Some a) /\ is_endpoint a = true) /\
  (exists b, arr !! (length arr - 1)%nat = Some (Some b) /\ is_endpoint b = true).

(** A step array without holes. *)
Definition dense (arr : JsArray Step) : Prop := Forall is_Some arr.


(* ================================================================== *)
(** * Facts about arrays *)
(* ================================================================== *)

Section ArrayFacts.
Context {A : Type}.
Implicit Types (arr : JsArray A) (x : A) (i j : Z) (k : nat).

Lemma clamp_in_range (len : nat) i :
  0 <= i <= Z.of_nat len -> Arr.clamp len i = Z.to_nat i.
Proof.
  intros Hi. unfold Arr.clamp.
  destruct (Z.ltb_spec i 0); [lia|]. f_equal. lia.
Qed.

Lemma clamp_le (len : nat) i : (Arr.clamp len i <= len)%nat.
Proof. unfold Arr.clamp. destruct (Z.ltb_spec i 0); lia. Qed.

Lemma set_length arr i x :
  0 <= i ->
  length (Arr.set arr i x) = Nat.max (length arr) (S (Z.to_nat i)).
Proof.
  intros Hi. unfold Arr.set.
  destruct (Z.ltb_spec i 0); [lia|].
  destruct (Nat.ltb_spec (Z.to_nat i) (length arr)).
  - rewrite length_insert. lia.
  - rewrite !length_app, length_replicate. simpl. lia.
Qed.

Lemma set_slot_eq arr i x :
  0 <= i -> Arr.set arr i x !! Z.to_nat i = Some (Some x).
Proof.
  intros Hi. unfold Arr.set.
  destruct (Z.ltb_spec i 0); [lia|].
  destruct (Nat.ltb_spec (Z.to_nat i) (length arr)).
  - by apply list_lookup_insert_eq.
  - rewrite lookup_app_r by lia.
    rewrite lookup_app_r by (rewrite length_replicate; lia).
    rewrite length_replicate.
    by replace (Z.to_nat i - length arr - (Z.to_nat i - length arr))%nat
      with 0%nat by lia.
Qed.

Lemma set_slot_ne arr i x k :
  k <> Z.to_nat i -> (k < length arr)%nat ->
  Arr.set arr i x !! k = arr !! k.
Proof.
  intros Hk Hlen. unfold Arr.set.
  destruct (Z.ltb_spec i 0); [done|].
  destruct (Nat.ltb_spec (Z.to_nat i) (length arr)).
  - by apply list_lookup_insert_ne.
  - by rewrite lookup_app_l.
Qed.


Lemma get_set_ne arr i j x :
  0 <= i -> j <> i -> Arr.get (Arr.set arr i x) j = Arr.get arr j.
Proof.
  intros Hi Hj. unfold Arr.get.
  destruct (Z.ltb_spec j 0); [done|].
  destruct (Nat.lt_ge_cases (Z.to_nat j) (length arr)) as [Hlt|Hge].
  - rewrite set_slot_ne; [done|lia|done].
  - rewrite (lookup_ge_None_2 arr) by done.
    unfold Arr.set.
    destruct (Z.ltb_spec i 0); [lia|].
    destruct (Nat.ltb_spec (Z.to_nat i) (length arr)).
    + rewrite lookup_ge_None_2; [done|rewrite length_insert; lia].
    + rewrite lookup_app_r by done.
      destruct (Nat.lt_ge_cases (Z.to_nat j - length arr)
                                (Z.to_nat i - length arr)) as [Hl|Hg].
      * rewrite lookup_app_l by (by rewrite length_replicate).
        rewrite lookup_replicate_2; done.
      * rewrite lookup_app_r by (by rewrite length_replicate).
        rewrite length_replicate.
        rewrite lookup_ge_None_2; [done|]. simpl. lia.
Qed.

(** Deleting one element inside the array. *)
Lemma splice_delete arr i :
  0 <= i < Z.of_nat (length arr) ->
  Arr.splice arr i 1 [] = take (Z.to_nat i) arr ++ drop (S (Z.to_nat i)) arr.
Proof.
  intros Hi. unfold Arr.splice.
  rewrite clamp_in_range by lia. simpl.
  do 2 f_equal. lia.
Qed.

(** Inserting one element at an index of the array or at its end. *)
Lemma splice_insert arr i (slot : option A) :
  0 <= i <= Z.of_nat (length arr) ->
  Arr.splice arr i 0 [slot]
  = take (Z.to_nat i) arr ++ slot :: drop (Z.to_nat i) arr.
Proof.
  intros Hi. unfold Arr.splice.
  rewrite clamp_in_range by lia. simpl.
  do 3 f_equal. lia.
Qed.

Lemma take_drop_delete_length (l : list (option A)) k :
  (k < length l)%nat -> (length (take k l ++ drop (S k) l) + 1 = length l)%nat.
Proof. intros. rewrite length_app, length_take, length_drop. lia. Qed.

Lemma take_drop_delete_before (l : list (option A)) k m :
  (m < k)%nat -> (k < length l)%nat ->
  (take k l ++ drop (S k) l) !! m = l !! m.
Proof.
  intros. rewrite lookup_app_l by (rewrite length_take; lia).
  by rewrite lookup_take_lt.
Qed.

Lemma take_drop_delete_after (l : list (option A)) k m :
  (k <= m)%nat -> (k < length l)%nat ->
  (take k l ++ drop (S k) l) !! m = l !! S m.
Proof.
  intros. rewrite lookup_app_r by (rewrite length_take; lia).
  rewrite length_take, lookup_drop. f_equal. lia.
Qed.

Lemma take_drop_insert_length (l : list (option A)) k slot :
  length (take k l ++ slot :: drop k l) = S (length l).
Proof. rewrite length_app, length_take. simpl. rewrite length_drop. lia. Qed.

Lemma take_drop_insert_at (l : list (option A)) k slot :
  (k <= length l)%nat -> (take k l ++ slot :: drop k l) !! k = Some slot.
Proof.
  intros. rewrite lookup_app_r by (rewrite length_take; lia).
  rewrite length_take. by replace (k - k `min` length l)%nat with 0%nat by lia.
Qed.

Lemma take_drop_insert_before (l : list (option A)) k m slot :
  (m < k)%nat -> (k <= length l)%nat ->
  (take k l ++ slot :: drop k l) !! m = l !! m.
Proof.
  intros. rewrite lookup_app_l by (rewrite length_take; lia).
  by rewrite lookup_take_lt.
Qed.

Lemma take_drop_insert_after (l : list (option A)) k m slot :
  (k <= m)%nat -> (k <= length l)%nat ->
  (take k l ++ slot :: drop k l) !! S m = l !! m.
Proof.
  intros. rewrite lookup_app_r by (rewrite length_take; lia).
  rewrite length_take.
  replace (S m - k `min` length l)%nat with (S (m - k)) by lia.
  simpl. rewrite lookup_drop. f_equal. lia.
Qed.

End ArrayFacts.

(* ================================================================== *)
(** * Facts about the accessors *)
(* ================================================================== *)

(** Unfolds the sequencing of the monad. *)
Ltac run := unfold mbind, M_bind, bind, mret, M_ret, ret, throw, lift; simpl.

Lemma with_steps_same d l : steps d = Some l -> with_steps (Some l) d = d.
Proof. destruct d as [st tg fl]. simpl. by intros ->. Qed.

Lemma touched_owned s d :
_integration s = Some d ->
_integration (touched s) = Some (with_steps (Some (steps_of d)) d).
Proof.
intros H. unfold touched, steps_of. rewrite H.
destruct (steps d) as [l|] eqn:E; simpl.
- by rewrite H, with_steps_same.
- done.
Qed.

Lemma touched_present s d l :
_integration s = Some d -> steps d = Some l -> touched s = s.
Proof. intros H E. unfold touched. by rewrite H, E. Qed.

Lemma touched_heap s : heap (touched s) = heap s.
Proof. unfold touched. by repeat case_match. Qed.

Lemma touched_store s : store (touched s) = store s.
Proof. unfold touched. by repeat case_match. Qed.

Lemma get_integration_owned s d :
_integration s = Some d -> get_integration s = (Normal (Some Owned), s).
Proof. intros H. unfold get_integration. by rewrite H. Qed.

Lemma get_integration_none s :
_integration s = None -> get_integration s = (Normal None, s).
Proof. intros H. unfold get_integration. by rewrite H. Qed.

Lemma get_steps_owned s d :
_integration s = Some d ->
get_steps s = (Normal (Some (steps_of d)), touched s).
Proof.
intros H. unfold get_steps, touched, steps_of. rewrite H.
by destruct (steps d).
Qed.

Lemma touched_idem s : touched (touched s) = touched s.
Proof.
unfold touched at 2 3.
destruct (_integration s) as [d|] eqn:H; [|unfold touched; by rewrite H].
destruct (steps d) as [l|] eqn:E.
- by rewrite (touched_present s d l).
- done.
Qed.

Lemma steps_length_owned s d :
_integration s = Some d ->
steps_length s = (Normal (Z.of_nat (length (steps_of d))), touched s).
Proof.
intros H. unfold steps_length. run. by rewrite (get_steps_owned s d).
Qed.

Lemma steps_of_touched s d :
_integration s = Some d ->
exists d', _integration (touched s) = Some d' /\ steps_of d' = steps_of d.
Proof.
intros H. eexists. split; [by apply touched_owned|]. done.
Qed.

(** A statement that changes [this.steps] in place, on a loaded
  integration: only the step array of the owned document changes. *)
Lemma mutate_steps_owned s d f :
_integration s = Some d ->
mutate_steps f s
= (Normal tt, set_owned (with_steps (Some (f (steps_of d))) d) s).
Proof.
intros H. unfold mutate_steps. run. rewrite (get_steps_owned s d H).
unfold update. rewrite (touched_owned s d H).
unfold touched. rewrite H. by destruct (steps d).
Qed.

Lemma getFirstPosition_owned s d :
_integration s = Some d -> getFirstPosition s = (Normal (Some 0), s).
Proof.
intros H. unfold getFirstPosition. run. by rewrite (get_integration_owned s d).
Qed.

Lemma getLastPosition_owned s d :
_integration s = Some d ->
getLastPosition s
= (Normal (Some (if Z.of_nat (length (steps_of d)) <=? 1 then 1
                 else Z.of_nat (length (steps_of d)) - 1)),
   touched s).
Proof.
intros H. unfold getLastPosition. run.
rewrite (get_integration_owned s d H), (steps_length_owned s d H).
destruct (Z.leb_spec (Z.of_nat (length (steps_of d))) 1); [done|].
destruct (steps_of_touched s d H) as (d' & H' & E').
rewrite (steps_length_owned _ d' H'), E'. by rewrite touched_idem.
Qed.

(* ================================================================== *)
(** * Positions *)
(* ================================================================== *)

(** C3.  On a loaded integration [getLastPosition()] returns [1] when the
  step sequence has length 0 or 1 and [n - 1] when its length [n] is
  greater than 1; the value returned is never below 1. *)
Theorem getLastPosition_spec (s : CurrentFlow) (d : Integration) :
_integration s = Some d ->
exists last : Z,
  fst (getLastPosition s) = Normal (Some last) /\
  ((length (steps_of d) <= 1)%nat -> last = 1) /\
  ((1 < length (steps_of d))%nat -> last = Z.of_nat (length (steps_of d)) - 1) /\
  1 <= last.
Proof.
intros H. rewrite (getLastPosition_owned s d H). simpl.
eexists. split; [reflexivity|].
destruct (Z.leb_spec (Z.of_nat (length (steps_of d))) 1); lia.
Qed.

Lemma set_owned_touched x s : set_owned x (touched s) = set_owned x s.
Proof. unfold touched. by repeat case_match. Qed.

Lemma mutate_steps_touched s d f :
_integration s = Some d -> mutate_steps f (touched s) = mutate_steps f s.
Proof.
intros H.
rewrite (mutate_steps_owned s d f H).
rewrite (mutate_steps_owned _ _ f (touched_owned s d H)).
by rewrite set_owned_touched.
Qed.

Lemma handleEvent_remove_step s d position onSave :
_integration s = Some d ->
handleEvent (IntegrationRemoveStep position onSave) s
= maybeDoAction onSave
    (set_owned (with_steps (Some (removed (steps_of d) position)) d) s).
Proof.
intros H. unfold handleEvent, removed. run.
rewrite (getFirstPosition_owned s d H).
destruct (decide (position = 0)) as [->|Hne].
- rewrite bool_decide_eq_true_2 by done.
  rewrite (mutate_steps_owned s d _ H).
  by rewrite (bool_decide_eq_true_2 (_ \/ _)) by (by left).
- rewrite bool_decide_eq_false_2 by congruence.
  rewrite (getLastPosition_owned s d H).
  set (last := if Z.of_nat (length (steps_of d)) <=? 1 then 1
               else Z.of_nat (length (steps_of d)) - 1).
  destruct (decide (position = last)) as [Heq|Hnl].
  + rewrite bool_decide_eq_true_2 by congruence.
    rewrite (mutate_steps_touched s d _ H), (mutate_steps_owned s d _ H).
    by rewrite (bool_decide_eq_true_2 (_ \/ _)) by (by right).
  + rewrite bool_decide_eq_false_2 by congruence.
    rewrite (mutate_steps_touched s d _ H), (mutate_steps_owned s d _ H).
    by rewrite (bool_decide_eq_false_2 (_ \/ _)) by tauto.
Qed.

(** C1.  On a loaded integration, with [0] the first position and [last]
    the value of [getLastPosition()]: [integration-remove-step] at the
    first or the last position puts a blank endpoint placeholder at that
    position, so the flow does not get shorter, the step now at the
    position has [stepKind] ['endpoint'], and the other steps stay.  At a
    position strictly between the two the step is deleted: the flow is
    shorter by exactly one and every later step moves down by one.  The
    [onSave] continuation then runs on the state so obtained. *)
Theorem remove_step_spec (s : CurrentFlow) (d : Integration) (position : Z)
        (onSave : option Callback) :
  _integration s = Some d ->
  let arr := steps_of d in
  exists (last : Z) (arr' : JsArray Step),
    fst (getFirstPosition s) = Normal (Some 0) /\
    fst (getLastPosition s) = Normal (Some last) /\
    handleEvent (IntegrationRemoveStep position onSave) s
    = maybeDoAction onSave (set_owned (with_steps (Some arr') d) s) /\
    (position = 0 \/ position = last ->
       (length arr <= length arr')%nat /\
       arr' !! Z.to_nat position = Some (Some blank_endpoint) /\
       stepKind blank_endpoint = Some "endpoint" /\
       connection blank_endpoint = None /\
       (forall k : nat, k <> Z.to_nat position -> (k < length arr)%nat ->
                        arr' !! k = arr !! k)) /\
    (0 < position < last ->
       (length arr' + 1 = length arr)%nat /\
       (forall k : nat, (k < Z.to_nat position)%nat -> arr' !! k = arr !! k) /\
       (forall k : nat, (Z.to_nat position <= k)%nat -> arr' !! k = arr !! S k)).
Proof.
  intros H arr.
  set (n := Z.of_nat (length arr)).
  set (last := if n <=? 1 then 1 else n - 1).
  exists last, (removed arr position).
  split; [by rewrite (getFirstPosition_owned s d H)|].
  split; [by rewrite (getLastPosition_owned s d H)|].
  split; [by apply handleEvent_remove_step|].
  assert (Hlast : 1 <= last) by (subst last; destruct (Z.leb_spec n 1); lia).
  unfold removed. fold n. fold last. split.
  - intros Hb. rewrite bool_decide_eq_true_2 by done.
    assert (0 <= position) by lia.
    rewrite set_length by done.
    repeat split; [lia|by apply set_slot_eq|].
    intros k Hk Hlen. by apply set_slot_ne.
  - intros Hi. rewrite bool_decide_eq_false_2 by lia.
    assert (Hn : 0 < position < n - 1).
    { subst last. destruct (Z.leb_spec n 1); lia. }
    rewrite splice_delete by (subst n; lia).
    assert (Hk : (Z.to_nat position < length arr)%nat) by (subst n; lia).
    split; [by apply take_drop_delete_length|].
    split; intros k Hlt.
    + by apply take_drop_delete_before.
    + by apply take_drop_delete_after.
Qed.

(** The step array after [integration-insert-step]. *)
Lemma handleEvent_insert_step s d position onSave :
_integration s = Some d ->
handleEvent (IntegrationInsertStep position onSave) s
= maybeDoAction onSave
    (set_owned
       (with_steps
          (Some (Arr.splice (steps_of d) (position + 1) 0 [Some createStep])) d)
       s).
Proof.
intros H. unfold handleEvent, insertStepAfter. run.
by rewrite (mutate_steps_owned s d _ H).
Qed.

(** C2.  For a position [p] of a flow of length [n],
  [integration-insert-step] at [p] gives a flow of length [n + 1] with
  the new blank step at index [p + 1]; the steps at an index up to [p]
  are unchanged and every step from index [p + 1] on has moved up by
  one.  The [onSave] continuation then runs on the state so obtained. *)
Theorem insert_step_spec (s : CurrentFlow) (d : Integration) (p : Z)
      (onSave : option Callback) :
_integration s = Some d ->
0 <= p < Z.of_nat (length (steps_of d)) ->
let arr := steps_of d in
exists arr' : JsArray Step,
  handleEvent (IntegrationInsertStep p onSave) s
  = maybeDoAction onSave (set_owned (with_steps (Some arr') d) s) /\
  length arr' = S (length arr) /\
  arr' !! Z.to_nat (p + 1) = Some (Some createStep) /\
  (forall k : nat, (k <= Z.to_nat p)%nat -> arr' !! k = arr !! k) /\
  (forall k : nat, (Z.to_nat p + 1 <= k)%nat -> arr' !! S k = arr !! k).
Proof.
intros H Hp arr. subst arr.
eexists. split; [by apply handleEvent_insert_step|].
rewrite splice_insert by lia.
assert (Hk : (Z.to_nat (p + 1) <= length (steps_of d))%nat) by lia.
split; [by apply take_drop_insert_length|].
split; [by apply take_drop_insert_at|].
split; intros k Hle.
- apply take_drop_insert_before; [lia|done].
- apply take_drop_insert_after; [lia|done].
Qed.

(** Past the end the insertion index is clamped: inserting after a
    position that holds no step appends the blank step. *)
Lemma insert_step_past_end (s : CurrentFlow) (d : Integration) (p : Z)
      (onSave : option Callback) :
  _integration s = Some d ->
  Z.of_nat (length (steps_of d)) <= p ->
  handleEvent (IntegrationInsertStep p onSave) s
  = maybeDoAction onSave
      (set_owned (with_steps (Some (steps_of d ++ [Some createStep])) d) s).
Proof.
  intros H Hp. rewrite (handleEvent_insert_step s d p onSave H).
  do 4 f_equal. unfold Arr.splice, Arr.clamp.
  destruct (Z.ltb_spec (p + 1) 0); [lia|].
  replace (Z.to_nat (Z.min (p + 1) (Z.of_nat (length (steps_of d)))))
    with (length (steps_of d)) by lia.
  rewrite firstn_all, skipn_all2 by lia. done.
Qed.

(* ================================================================== *)
(** * The Data Mapper visibility predicate *)
(* ================================================================== *)

Lemma has_output_shape_resolved s : has_output_shape s = true <-> resolved_output s.
Proof.
unfold has_output_shape, resolved_output. destruct (action s) as [a|].
- split; [eauto|]. by intros (a' & [= <-] & Ht).
- split; [done|]. by intros (a' & ? & _).
Qed.

Lemma has_input_shape_resolved s : has_input_shape s = true <-> resolved_input s.
Proof.
unfold has_input_shape, resolved_input. destruct (action s) as [a|].
- split; [eauto|]. by intros (a' & [= <-] & Ht).
- split; [done|]. by intros (a' & ? & _).
Qed.

Lemma elem_of_present {A} (arr : JsArray A) (x : A) :
x ∈ Arr.present arr <-> Some x ∈ arr.
Proof.
unfold Arr.present. rewrite list_elem_of_omap. split.
- intros (o & Ho & E). simpl in E. by subst.
- intros Hx. by exists (Some x).
Qed.

(** A filter keeps something exactly when some element present passes. *)
Lemma filter_nonempty {A} (f : A -> bool) (arr : JsArray A) :
(length (Arr.filter f arr) =? 0)%nat = false
<-> exists x, Some x ∈ arr /\ f x = true.
Proof.
unfold Arr.filter. rewrite length_map, Nat.eqb_neq. split.
- intros Hne. destruct (List.filter f (Arr.present arr)) as [|x l] eqn:E; [done|].
  assert (Hin : In x (List.filter f (Arr.present arr))) by (rewrite E; by left).
  apply filter_In in Hin as [Hin Hf].
  exists x. split; [|done]. by apply elem_of_present, list_elem_of_In.
- intros (x & Hx & Hf) Hlen.
  assert (Hin : In x (List.filter f (Arr.present arr))).
  { apply filter_In. split; [|done]. by apply list_elem_of_In, elem_of_present. }
  destruct (List.filter f (Arr.present arr)); [done|discriminate].
Qed.

(** C9.  The Data Mapper predicate answers [true] exactly when some
  preceding step has an action with a resolved output shape and some
  subsequent step has an action with a resolved input shape.  So it
  answers [false] when [previous] is empty and when [subsequent] is
  empty, whatever the other side holds. *)
Theorem visible_spec (position : Z) (previous subsequent : JsArray Step) :
(visible position previous subsequent = true
 <-> (exists s, Some s ∈ previous /\ resolved_output s)
     /\ (exists s, Some s ∈ subsequent /\ resolved_input s))
/\ visible position [] subsequent = false
/\ visible position previous [] = false.
Proof.
split; [|split].
- unfold visible.
  destruct (length (Arr.filter has_output_shape previous) =? 0)%nat eqn:Ep.
  + split; [done|]. intros [(x & Hx & Hr) _].
    apply has_output_shape_resolved in Hr.
    assert (Hn : (length (Arr.filter has_output_shape previous) =? 0)%nat = false)
      by (apply filter_nonempty; eauto).
    congruence.
  + apply filter_nonempty in Ep as (x & Hx & Hfx).
    destruct (length (Arr.filter has_input_shape subsequent) =? 0)%nat eqn:Es.
    * split; [done|]. intros [_ (y & Hy & Hr)].
      apply has_input_shape_resolved in Hr.
      assert (Hn : (length (Arr.filter has_input_shape subsequent) =? 0)%nat = false)
        by (apply filter_nonempty; eauto).
      congruence.
    * apply filter_nonempty in Es as (y & Hy & Hfy).
      split; [|done]. intros _. split.
      -- exists x. split; [done|]. by apply has_output_shape_resolved.
      -- exists y. split; [done|]. by apply has_input_shape_resolved.
- done.
- unfold visible. simpl.
  by destruct (length (Arr.filter has_output_shape previous) =? 0)%nat.
Qed.

(* ================================================================== *)
(** * Saving *)
(* ================================================================== *)

Lemma slice_from_0 {A} (arr : JsArray A) : Arr.slice_from arr 0 = arr.
Proof. unfold Arr.slice_from. by rewrite clamp_in_range by lia. Qed.

Lemma getSubsequentConnections_owned s d :
_integration s = Some d ->
getSubsequentConnections 0 s
= (Normal (Some (Arr.filter is_endpoint (steps_of d))), touched s).
Proof.
intros H. unfold getSubsequentConnections, getSubsequentSteps. run.
unfold touched, steps_of. rewrite H.
destruct (steps d) as [l|]; simpl; [|done].
by rewrite slice_from_0.
Qed.

Lemma getIntegrationClone_owned s d :
_integration s = Some d ->
getIntegrationClone s
= (Normal (Detached (length (heap s))),
   set_heap (heap s ++ [clone_integration d]) s).
Proof.
intros H. unfold getIntegrationClone. run.
rewrite (get_integration_owned s d H).
unfold read, deref. by rewrite H.
Qed.

(** The synchronous part of a save on a loaded integration, in one step:
  either the collection of the connector ids throws, or the copy with
  the merged tags is handed to the store. *)
Lemma handleEvent_save_owned s d action error :
_integration s = Some d ->
handleEvent (IntegrationSave action error) s
= match flow_connectorIds d with
  | Throw e =>
      (Throw e, set_heap (heap s ++ [clone_integration d]) (touched s))
  | Normal ids =>
      (Normal tt,
       set_store (store s ++ [Detached (length (heap s))])
         (set_heap (heap s ++ [saved_copy d ids]) (touched s)))
  end.
Proof.
intros H. unfold handleEvent. run.
rewrite (getIntegrationClone_owned s d H).
unfold read, deref. simpl.
rewrite lookup_app_r by done. rewrite Nat.sub_diag. simpl.
rewrite (getSubsequentConnections_owned _ d) by done.
unfold flow_connectorIds.
destruct (array_map connectorId_of (Arr.filter is_endpoint (steps_of d)))
  as [ids|e] eqn:E.
- unfold update, updateOrCreate. rewrite touched_heap. simpl.
  rewrite lookup_app_r by done. rewrite Nat.sub_diag. simpl.
  unfold saved_copy, copied_tags.
  f_equal. unfold touched. simpl. rewrite H.
  destruct (steps d); simpl; unfold set_store, set_heap; simpl;
    f_equal; rewrite insert_app_r_alt by done;
    by rewrite Nat.sub_diag.
- f_equal. unfold touched. simpl. rewrite H. by destruct (steps d).
Qed.

Section TagMerge.
Implicit Types (tags : list JsVal) (id q x : JsVal) (l : list JsVal).

Lemma strict_equals_connectorId x q :
  is_connectorId q -> strict_equals x q = true <-> x = q.
Proof.
  intros [[k|] ->]; simpl.
  - destruct x as [ | | | [] | s | | ]; simpl; try (split; [done|discriminate]).
    rewrite String.eqb_eq. split; [by intros ->|by intros [= ->]].
  - destruct x as [ | | | [] | | | ]; simpl; by split.
Qed.

Lemma strict_equals_refl q : is_connectorId q -> strict_equals q q = true.
Proof. intros Hq. by apply strict_equals_connectorId. Qed.

Lemma not_found_occurrences tags q :
  not_found tags q = true <-> occurrences tags q = 0%nat.
Proof.
  unfold not_found, occurrences. induction tags as [|t tags IH]; simpl; [done|].
  destruct (strict_equals t q); simpl; [by split|done].
Qed.

Lemma occurrences_app tags l q :
  occurrences (tags ++ l) q = (occurrences tags q + occurrences l q)%nat.
Proof. unfold occurrences. by rewrite List.filter_app, length_app. Qed.

Lemma not_found_elem tags q :
  is_connectorId q -> not_found tags q = true <-> q ∉ tags.
Proof.
  intros Hq. unfold not_found. rewrite forallb_forall. split.
  - intros Hall Hin. apply list_elem_of_In, Hall in Hin.
    by rewrite strict_equals_refl in Hin.
  - intros Hnin x Hx. apply negb_true_iff.
    destruct (strict_equals x q) eqn:E; [|done].
    apply strict_equals_connectorId in E; [|done]. subst.
    by apply list_elem_of_In in Hx.
Qed.

(** One step of the merge, counted. *)
Lemma occurrences_merge_tag tags id q :
  is_connectorId id -> is_connectorId q ->
  occurrences (merge_tag tags id) q
  = if strict_equals id q then Nat.max 1 (occurrences tags q)
    else occurrences tags q.
Proof.
  intros Hid Hq. unfold merge_tag.
  destruct (not_found tags id) eqn:Enf.
  - rewrite occurrences_app. unfold occurrences at 2. simpl.
    destruct (strict_equals id q) eqn:E; simpl; [|lia].
    apply strict_equals_connectorId in E; [|done]. subst.
    apply not_found_occurrences in Enf. lia.
  - destruct (strict_equals id q) eqn:E; [|done].
    apply strict_equals_connectorId in E; [|done]. subst.
    destruct (occurrences tags q) eqn:Eo; [|lia].
    apply not_found_occurrences in Eo. congruence.
Qed.

Lemma occurrences_foldl_merge l tags q :
  Forall is_connectorId l -> is_connectorId q ->
  occurrences (foldl merge_tag tags l) q
  = if existsb (fun id => strict_equals id q) l
    then Nat.max 1 (occurrences tags q)
    else occurrences tags q.
Proof.
  intros Hl Hq. revert tags.
  induction Hl as [|id l Hid Hl IH]; intros tags; simpl; [done|].
  rewrite IH, (occurrences_merge_tag tags id q Hid Hq).
  destruct (strict_equals id q), (existsb _ l); simpl; lia.
Qed.

Lemma foldl_merge_present l tags :
  Forall (fun id => not_found tags id = false) l ->
  foldl merge_tag tags l = tags.
Proof.
  induction 1 as [|id l Hid Hl IH]; simpl; [done|].
  unfold merge_tag at 2. by rewrite Hid.
Qed.

Lemma foldl_merge_prefix l tags : tags `prefix_of` foldl merge_tag tags l.
Proof.
  revert tags. induction l as [|id l IH]; intros tags; simpl; [done|].
  etrans; [|apply IH]. unfold merge_tag.
  destruct (not_found tags id); [by apply prefix_app_r|done].
Qed.

Lemma foldl_merge_NoDup l tags :
  Forall is_connectorId l -> NoDup tags -> NoDup (foldl merge_tag tags l).
Proof.
  intros Hl. revert tags.
  induction Hl as [|id l Hid Hl IH]; intros tags Hnd; simpl; [done|].
  apply IH. unfold merge_tag.
  destruct (not_found tags id) eqn:E; [|done].
  apply not_found_elem in E; [|done].
  apply NoDup_app. split; [done|]. split; [|apply NoDup_singleton].
  intros x Hx Hx'. apply list_elem_of_singleton in Hx'. by subst.
Qed.

(** Merging the same ids a second time changes nothing. *)
Lemma foldl_merge_idem l tags :
  Forall is_connectorId l ->
  foldl merge_tag (foldl merge_tag tags l) l = foldl merge_tag tags l.
Proof.
  intros Hl. apply foldl_merge_present.
  apply Forall_forall. intros id Hin.
  assert (Hid : is_connectorId id).
  { rewrite Forall_forall in Hl. by apply Hl. }
  destruct (not_found (foldl merge_tag tags l) id) eqn:E; [|done].
  apply not_found_occurrences in E.
  rewrite (occurrences_foldl_merge l tags id Hl Hid) in E.
  assert (Hex : existsb (fun id' => strict_equals id' id) l = true).
  { apply existsb_exists. exists id. split; [by apply list_elem_of_In|].
    by apply strict_equals_refl. }
  rewrite Hex in E. lia.
Qed.

End TagMerge.

(** What [array_map] returns when no callback throws. *)
Lemma array_map_Normal {A B} (f : A -> Completion B) (arr : JsArray A) out :
array_map f arr = Normal out ->
forall b, Some b ∈ out -> exists a, Some a ∈ arr /\ f a = Normal b.
Proof.
revert out. induction arr as [|[a|] arr IH]; intros out; simpl.
- intros [= <-] b Hb. by apply elem_of_nil in Hb.
- destruct (f a) as [b'|] eqn:Ef; [|done].
  destruct (array_map f arr) as [out'|]; [|done].
  intros [= <-] b Hb. apply elem_of_cons in Hb as [[= ->]|Hb].
  + exists a. split; [by left|done].
  + destruct (IH out' eq_refl b Hb) as (a' & Ha' & Hf).
    exists a'. split; [by right|done].
- destruct (array_map f arr) as [out'|]; [|done].
  intros [= <-] b Hb. apply elem_of_cons in Hb as [?|Hb]; [done|].
  destruct (IH out' eq_refl b Hb) as (a' & Ha' & Hf).
  exists a'. split; [by right|done].
Qed.

Lemma flow_connectorIds_are_ids d ids :
flow_connectorIds d = Normal ids -> Forall is_connectorId (Arr.present ids).
Proof.
intros H. apply Forall_forall. intros id Hid.
apply elem_of_present in Hid.
destruct (array_map_Normal _ _ _ H id Hid) as (st & _ & Hf).
unfold connectorId_of in Hf. destruct (connection st) as [c|]; [|done].
injection Hf as <-. by eexists.
Qed.

Lemma foldl_merge_elem l tags t :
t ∈ foldl merge_tag tags l -> t ∈ tags \/ t ∈ l.
Proof.
revert tags. induction l as [|id l IH]; intros tags; simpl; [by left|].
intros Ht. destruct (IH _ Ht) as [Hm|Hl]; [|right; by right].
unfold merge_tag in Hm. destruct (not_found tags id); [|by left].
apply elem_of_app in Hm as [?|Hs]; [by left|].
apply list_elem_of_singleton in Hs. subst. right. by left.
Qed.

Lemma existsb_strict_equals_present (ids : JsArray JsVal) id :
is_connectorId id -> Some id ∈ ids ->
existsb (fun x => strict_equals x id) (Arr.present ids) = true.
Proof.
intros Hid Hin. apply existsb_exists. exists id. split.
- by apply list_elem_of_In, elem_of_present.
- by apply strict_equals_refl.
Qed.

(** C4.  When the save of a loaded integration goes through, the copy
  handed to the store carries the tags of the document followed by the
  connector ids of the flow's endpoint steps that were not among them:
  every tag already there is kept, every entry is an old tag or a
  connector id, a connector id occurs once if it was absent and as often
  as before otherwise, so tags without duplicates stay without
  duplicates.  Merging the same ids again changes nothing, and a second
  save in a row hands over the same tags. *)
Theorem save_tag_merge (s : CurrentFlow) (d : Integration)
      (action : option (Integration -> Callback))
      (error : option (JsVal -> Callback)) (ids : JsArray JsVal) :
_integration s = Some d ->
flow_connectorIds d = Normal ids ->
let merged := merge_tags (copied_tags d) ids in
exists (s1 : CurrentFlow) (r : IntegrationRef) (saved : Integration),
  handleEvent (IntegrationSave action error) s = (Normal tt, s1) /\
  store s1 = store s ++ [r] /\
  deref r s1 = Some saved /\
  tags saved = Some merged /\
  copied_tags d `prefix_of` merged /\
  (forall t, t ∈ merged -> t ∈ copied_tags d \/ Some t ∈ ids) /\
  (forall id, Some id ∈ ids ->
     occurrences merged id = Nat.max 1 (occurrences (copied_tags d) id)) /\
  (NoDup (copied_tags d) -> NoDup merged) /\
  merge_tags merged ids = merged /\
  (forall action' error', exists (s2 : CurrentFlow) (r2 : IntegrationRef)
                                 (saved2 : Integration),
     handleEvent (IntegrationSave action' error') s1 = (Normal tt, s2) /\
     store s2 = store s1 ++ [r2] /\
     deref r2 s2 = Some saved2 /\
     tags saved2 = Some merged).
Proof.
intros H Hids merged.
pose proof (flow_connectorIds_are_ids d ids Hids) as Hall.
eexists _, (Detached (length (heap s))), (saved_copy d ids).
split. { rewrite (handleEvent_save_owned s d action error H), Hids. reflexivity. }
split; [done|].
split. { simpl. rewrite ?touched_heap, lookup_app_r by done.
         by rewrite Nat.sub_diag. }
split; [done|].
split; [apply foldl_merge_prefix|].
split. { intros t Ht. apply foldl_merge_elem in Ht as [?|Ht]; [by left|].
         right. by apply elem_of_present. }
split.
{ intros id Hin. unfold merged, merge_tags.
  assert (Hid : is_connectorId id).
  { rewrite Forall_forall in Hall. by apply Hall, elem_of_present. }
  rewrite occurrences_foldl_merge by done.
  by rewrite existsb_strict_equals_present. }
split; [by apply foldl_merge_NoDup|].
split; [by apply foldl_merge_idem|].
intros action' error'.
set (s1 := set_store _ _).
assert (H1 : _integration s1 = Some (with_steps (Some (steps_of d)) d)).
{ unfold s1. simpl. by apply touched_owned. }
eexists _, (Detached (length (heap s1))), _.
split. { rewrite (handleEvent_save_owned s1 _ action' error' H1).
         change (flow_connectorIds (with_steps (Some (steps_of d)) d))
           with (flow_connectorIds d).
         rewrite Hids. reflexivity. }
split; [done|].
split. { simpl. rewrite ?touched_heap, lookup_app_r by done.
         by rewrite Nat.sub_diag. }
done.
Qed.

(** The owned document after a save, whether or not the save throws. *)
Lemma handleEvent_save_document s d action error :
_integration s = Some d ->
_integration (snd (handleEvent (IntegrationSave action error) s))
= Some (with_steps (Some (steps_of d)) d).
Proof.
intros H. rewrite (handleEvent_save_owned s d action error H).
destruct (flow_connectorIds d); simpl; by apply touched_owned.
Qed.

(** C10, as stated, fails on a document whose step sequence is missing:
  the save reads the flow through [getSubsequentSteps], which sets the
  missing sequence of the owned document to [[]]. *)
Lemma save_initializes_missing_steps :
let d := {| steps := None; tags := None; fields := [] |} in
let s := editing d in
let s1 := snd (handleEvent (IntegrationSave None None) s) in
_integration s1 = Some {| steps := Some []; tags := None; fields := [] |}
/\ _integration s1 <> _integration s.
Proof. split; [reflexivity|discriminate]. Qed.

(** C10, amended.  The synchronous part of a save leaves the owned
  document as it was, except that a missing step sequence is initialized
  to the empty one: the tags and every other field are the same before
  and after, the step sequence reads the same, and when the sequence was
  present the document is identical.  The merged tags go to a newly
  allocated copy, and the objects allocated before are untouched. *)
Theorem save_leaves_document (s : CurrentFlow) (d : Integration)
      (action : option (Integration -> Callback))
      (error : option (JsVal -> Callback)) :
_integration s = Some d ->
let s1 := snd (handleEvent (IntegrationSave action error) s) in
exists d1 : Integration,
  _integration s1 = Some d1 /\
  tags d1 = tags d /\
  fields d1 = fields d /\
  steps_of d1 = steps_of d /\
  (is_Some (steps d) -> d1 = d) /\
  _loaded s1 = _loaded s /\
  heap s `prefix_of` heap s1 /\
  (forall r, r ∈ store s1 -> r ∈ store s \/ r = Detached (length (heap s))).
Proof.
intros H s1.
exists (with_steps (Some (steps_of d)) d).
split; [by apply handleEvent_save_document|].
do 3 (split; [done|]).
split. { intros [l Hl]. unfold steps_of. rewrite Hl. by apply with_steps_same. }
unfold s1. rewrite (handleEvent_save_owned s d action error H).
assert (Hl : _loaded (touched s) = _loaded s).
{ unfold touched. by repeat case_match. }
destruct (flow_connectorIds d); simpl; rewrite ?touched_store.
- split; [done|]. split; [by apply prefix_app_r|].
  intros r Hr. apply elem_of_app in Hr as [?|Hr]; [by left|].
  apply list_elem_of_singleton in Hr. by right.
- split; [done|]. split; [by apply prefix_app_r|]. intros r Hr. by left.
Qed.

(* ================================================================== *)
(** * Where the handler and the queries throw *)
(* ================================================================== *)

Lemma array_map_Throw {A B} (f : A -> Completion B) (arr : JsArray A) a e :
  Some a ∈ arr -> f a = Throw e ->
  (forall a' e', f a' = Throw e' -> e' = e) ->
  array_map f arr = Throw e.
Proof.
  intros Hin Hf Hsame. induction arr as [|[a0|] arr IH]; simpl.
  - by apply elem_of_nil in Hin.
  - destruct (f a0) as [b|e0] eqn:E0.
    + apply elem_of_cons in Hin as [[= ->]|Hin]; [congruence|].
      by rewrite (IH Hin).
    + f_equal. by apply Hsame in E0.
  - apply elem_of_cons in Hin as [?|Hin]; [done|]. by rewrite (IH Hin).
Qed.

(** Any endpoint step without a connection makes the save throw, and the
    store is not called. *)
Lemma save_throws_without_connection s d st action error :
  _integration s = Some d ->
  Some st ∈ steps_of d -> is_endpoint st = true -> connection st = None ->
  exists s1,
    handleEvent (IntegrationSave action error) s
    = (Throw (TypeError "Cannot read property 'connectorId' of undefined"), s1)
    /\ store s1 = store s.
Proof.
  intros H Hin He Hc.
  rewrite (handleEvent_save_owned s d action error H).
  assert (Hthrow : flow_connectorIds d
    = Throw (TypeError "Cannot read property 'connectorId' of undefined")).
  { unfold flow_connectorIds. apply (array_map_Throw _ _ st).
    - unfold Arr.filter. apply list_elem_of_fmap. exists st. split; [done|].
      apply list_elem_of_In, filter_In. split; [|done].
      by apply list_elem_of_In, elem_of_present.
    - unfold connectorId_of. by rewrite Hc.
    - intros a' e'. unfold connectorId_of.
      destruct (connection a'); [done|]. by intros [= <-]. }
  rewrite Hthrow. eexists. split; [done|]. simpl. apply touched_store.
Qed.

(** C5: the save handler throws on a flow the editor itself produces.
  Removing the first step of a flow of two connected endpoints leaves a
  blank endpoint placeholder without a connection; the save that follows
  throws a TypeError while collecting the connector ids, and nothing
  reaches the store. *)
Theorem save_throws_on_blank_endpoint :
let s0 := editing (flow_of [Some (endpoint_of "sql"); Some (endpoint_of "http")]) in
exists (s1 s2 : CurrentFlow),
  handleEvent (IntegrationRemoveStep 0 None) s0 = (Normal tt, s1) /\
  (exists d1, _integration s1 = Some d1 /\
              steps d1 = Some [Some blank_endpoint; Some (endpoint_of "http")]) /\
  handleEvent (IntegrationSave None None) s1
  = (Throw (TypeError "Cannot read property 'connectorId' of undefined"), s2) /\
  store s2 = [].
Proof.
intros s0.
set (s1 := snd (handleEvent (IntegrationRemoveStep 0 None) s0)).
exists s1, (snd (handleEvent (IntegrationSave None None) s1)).
split; [by vm_compute|].
split; [eexists; split; by vm_compute|].
split; by vm_compute.
Qed.

Lemma obj_get_set props k x : obj_get (obj_set props k x) k = Some x.
Proof.
induction props as [|[k' v] props IH]; simpl.
- by rewrite String.eqb_refl.
- destruct (String.eqb k' k) eqn:E; simpl; by rewrite E.
Qed.

(** C6: [integration-set-property] computes the normalized value and then
  stores the payload as it came.  With the payload [{a: true}] for
  [configuredProperties] the document holds [{a: true}], while the
  normalized value is [{a: "true"}]. *)
Theorem set_property_stores_raw_value :
let raw := JObj [("a", JBool true)] in
let s0 := editing (flow_of []) in
exists (s1 : CurrentFlow) (d1 : Integration),
  handleEvent
    (IntegrationSetProperty (AssignField "configuredProperties" raw) None) s0
  = (Normal tt, s1) /\
  _integration s1 = Some d1 /\
  obj_get (fields d1) "configuredProperties" = Some raw /\
  stringifyValues raw = Normal (JObj [("a", JStr "true")]) /\
  raw <> JObj [("a", JStr "true")].
Proof.
intros raw s0.
set (ev := IntegrationSetProperty (AssignField "configuredProperties" raw) None).
exists (snd (handleEvent ev s0)), (with_field "configuredProperties" raw (flow_of [])).
split; [by vm_compute|].
split; [by vm_compute|]. split; [by vm_compute|]. split; [by vm_compute|].
discriminate.
Qed.

(** C7: with no integration, [getPreviousConnection(p)] and
  [getSubsequentConnection(p)] throw a TypeError at every position: the
  list they read is [null]. *)
Theorem connection_queries_throw_unloaded (p : Z) (loaded : bool)
      (h : list Integration) (q : list IntegrationRef) :
let s := unloaded loaded h q in
getPreviousConnection p s
= (Throw (TypeError "Cannot read property 'reverse' of null"), s)
/\ getSubsequentConnection p s
   = (Throw (TypeError "Cannot read property '0' of null"), s).
Proof. split; reflexivity. Qed.

(** The other positional queries do answer without an integration. *)
Lemma other_queries_soft_unloaded (p : Z) (loaded : bool)
    (h : list Integration) (q : list IntegrationRef) :
let s := unloaded loaded h q in
getFirstPosition s = (Normal None, s) /\
getLastPosition s = (Normal None, s) /\
getMiddlePosition s = (Normal None, s) /\
getStep (Some p) s = (Normal None, s) /\
getStartStep s = (Normal None, s) /\
getEndStep s = (Normal None, s) /\
getStartConnection s = (Normal None, s) /\
getEndConnection s = (Normal None, s) /\
getMiddleSteps s = (Normal [], s) /\
getPreviousSteps p s = (Normal None, s) /\
getSubsequentSteps p s = (Normal None, s) /\
getPreviousConnections p s = (Normal None, s) /\
getSubsequentConnections p s = (Normal None, s) /\
isEmpty s = (Normal true, s) /\
atEnd p s = (Normal true, s).
Proof. repeat split; reflexivity. Qed.

(* ================================================================== *)
(** * Property normalization *)
(* ================================================================== *)

(** Induction over values that reaches inside arrays and objects. *)
Lemma JsVal_nested_ind (P : JsVal -> Prop) :
P JUndefined -> P JNull -> (forall b, P (JBool b)) ->
(forall n, P (JNum n)) -> (forall s, P (JStr s)) ->
(forall elems, Forall P elems -> P (JArr elems)) ->
(forall props, Forall (fun kv => P (snd kv)) props -> P (JObj props)) ->
forall v, P v.
Proof.
intros Hu Hn Hb Hnum Hs Ha Ho.
fix IH 1. intros v. destruct v as [ | | b | n | s | elems | props ].
- exact Hu.
- exact Hn.
- apply Hb.
- apply Hnum.
- apply Hs.
- apply Ha. induction elems as [|e elems IHe]; constructor;
    [apply IH|exact IHe].
- apply Ho. induction props as [|[k e] props IHp]; constructor;
    [apply IH|exact IHp].
Qed.

Section JsonFacts.
Implicit Types (v w : JsVal) (props : list (string * JsVal)) (k : string).

Lemma JSON_stringify_None v : JSON_stringify v = None <-> v = JUndefined.
Proof. destruct v; simpl; by split. Qed.

Lemma JSON_roundtrip_None v : JSON_roundtrip v = None <-> v = JUndefined.
Proof. destruct v as [ | | | [] | | | ]; simpl; by split. Qed.

(** What comes back from the round trip is plain JSON data at the top:
    not [undefined], not a non-finite number. *)
Lemma JSON_roundtrip_shape v w :
  JSON_roundtrip v = Some w ->
  w <> JUndefined /\ (is_number w = true -> is_finite_number w = true).
Proof.
  destruct v as [ | | | [] | | | ]; simpl; intros [= <-]; by split.
Qed.

(** Strings and finite numbers come back as they went. *)
Lemma JSON_roundtrip_scalar v :
  is_string v = true \/ is_finite_number v = true ->
  JSON_roundtrip v = Some v.
Proof. destruct v as [ | | | [] | | | ]; simpl; by intros [?|?]. Qed.

(** Anything else comes back as something that is neither a string nor
    a number. *)
Lemma JSON_roundtrip_other v w :
  is_string v = false -> is_finite_number v = false ->
  JSON_roundtrip v = Some w ->
  is_string w = false /\ is_number w = false.
Proof.
  destruct v as [ | | | [] | | | ]; simpl; intros ? ?; by intros [= <-].
Qed.

(** Serializing the copy gives the text of the original: the round
    trip loses nothing that [JSON.stringify] would write. *)
Lemma JSON_stringify_roundtrip v w :
  JSON_roundtrip v = Some w -> JSON_stringify w = JSON_stringify v.
Proof.
  revert w. induction v as [ | | b | n | s | elems IH | props IH ]
    using JsVal_nested_ind; intros w; simpl.
  - done.
  - by intros [= <-].
  - by intros [= <-].
  - destruct n; by intros [= <-].
  - by intros [= <-].
  - intros [= <-]. simpl. do 4 f_equal.
    rewrite map_map. apply map_ext_Forall.
    eapply Forall_impl; [exact IH|]. simpl. intros e He.
    destruct (JSON_roundtrip e) as [w|] eqn:E; simpl.
    + by rewrite (He w).
    + apply JSON_roundtrip_None in E. by subst.
  - intros [= <-]. simpl. do 4 f_equal.
    induction IH as [|[k e] props He _ IHp]; simpl; [done|].
    simpl in He.
    destruct (JSON_roundtrip e) as [w|] eqn:E; simpl.
    + rewrite (He w eq_refl).
      destruct (JSON_stringify e); simpl; [f_equal|]; exact IHp.
    + apply JSON_roundtrip_None in E. subst. simpl. exact IHp.
Qed.

(** ** Objects as property lists *)

Lemma obj_get_None props k : k ∉ map fst props -> obj_get props k = None.
Proof.
  induction props as [|[k' v] props IH]; simpl; [done|].
  intros Hk. apply not_elem_of_cons in Hk as [Hne Hk].
  destruct (String.eqb_spec k' k); [congruence|]. by apply IH.
Qed.

Lemma obj_get_elem props k v : obj_get props k = Some v -> k ∈ map fst props.
Proof.
  induction props as [|[k' v'] props IH]; simpl; [done|].
  destruct (String.eqb_spec k' k); [intros _; subst; by left|].
  intros Hg. right. by apply IH.
Qed.

Lemma clone_fields_keys props k :
  k ∈ map fst (clone_fields props) -> k ∈ map fst props.
Proof.
  induction props as [|[k' v] props IH]; simpl; [done|].
  unfold clone_fields. simpl. fold (clone_fields props).
  destruct (JSON_roundtrip v); simpl.
  - intros Hk. apply elem_of_cons in Hk as [->|Hk]; [by left|]. right. by apply IH.
  - intros Hk. right. by apply IH.
Qed.

Lemma clone_fields_NoDup props :
  NoDup (map fst props) -> NoDup (map fst (clone_fields props)).
Proof.
  induction props as [|[k v] props IH]; simpl; [done|].
  intros Hnd. apply NoDup_cons in Hnd as [Hk Hnd].
  unfold clone_fields. simpl. fold (clone_fields props).
  destruct (JSON_roundtrip v); simpl; [|by apply IH].
  apply NoDup_cons. split; [|by apply IH].
  intros Hin. by apply Hk, clone_fields_keys.
Qed.

(** Reading the copy of an object: the copy of what the original has. *)
Lemma obj_get_clone_fields props k :
  NoDup (map fst props) ->
  obj_get (clone_fields props) k = obj_get props k ≫= JSON_roundtrip.
Proof.
  induction props as [|[k' v] props IH]; simpl; [done|].
  intros Hnd. apply NoDup_cons in Hnd as [Hk Hnd].
  unfold clone_fields. simpl. fold (clone_fields props).
  destruct (String.eqb_spec k' k) as [->|Hne].
  - simpl. destruct (JSON_roundtrip v) as [w|] eqn:E; simpl.
    + by rewrite String.eqb_refl.
    + apply obj_get_None. intros Hin. by apply Hk, clone_fields_keys.
  - destruct (JSON_roundtrip v) as [w|]; simpl.
    + destruct (String.eqb_spec k' k); [done|]. by apply IH.
    + by apply IH.
Qed.

Lemma obj_get_map (f : JsVal -> JsVal) props k :
  obj_get (map (fun kv => (fst kv, f (snd kv))) props) k
  = f <$> obj_get props k.
Proof.
  induction props as [|[k' v] props IH]; simpl; [done|].
  by destruct (String.eqb k' k).
Qed.

Lemma obj_get_app_cons pre post k v :
  k ∉ map fst pre -> obj_get (pre ++ (k, v) :: post) k = Some v.
Proof.
  induction pre as [|[k' v'] pre IH]; simpl.
  - intros _. by rewrite String.eqb_refl.
  - intros Hk. apply not_elem_of_cons in Hk as [Hne Hk].
    destruct (String.eqb_spec k' k); [congruence|]. by apply IH.
Qed.

Lemma obj_set_app_cons pre post k v x :
  k ∉ map fst pre ->
  obj_set (pre ++ (k, v) :: post) k x = pre ++ (k, x) :: post.
Proof.
  induction pre as [|[k' v'] pre IH]; simpl.
  - intros _. by rewrite String.eqb_refl.
  - intros Hk. apply not_elem_of_cons in Hk as [Hne Hk].
    destruct (String.eqb_spec k' k); [congruence|]. by rewrite IH.
Qed.

Lemma typeof_string_or_number w :
  String.eqb (typeof w) "string" || String.eqb (typeof w) "number"
  = is_string w || is_number w.
Proof. by destruct w. Qed.

(** The loop of [stringifyValues] over an object with distinct keys:
    every value is replaced by its normalized form, in place. *)
Lemma stringify_loop pre post :
  NoDup (map fst (pre ++ post)) ->
  foldl stringify_at (JObj (pre ++ post)) (map (fun kv => Name (fst kv)) post)
  = JObj (pre ++ map (fun kv => (fst kv, normalized (snd kv))) post).
Proof.
  revert pre. induction post as [|[k v] post IH]; intros pre Hnd; simpl; [done|].
  assert (Hk : k ∉ map fst pre).
  { rewrite map_app in Hnd. apply NoDup_app in Hnd as (_ & Hd & _).
    intros Hin. apply (Hd k Hin). by left. }
  assert (Hstep : stringify_at (JObj (pre ++ (k, v) :: post)) (Name k)
                  = JObj (pre ++ (k, normalized v) :: post)).
  { unfold stringify_at. simpl. rewrite obj_get_app_cons by done. simpl.
    rewrite typeof_string_or_number. unfold normalized.
    destruct (is_string v || is_number v); [done|].
    by rewrite obj_set_app_cons. }
  rewrite Hstep.
  replace (pre ++ (k, normalized v) :: post)
    with ((pre ++ [(k, normalized v)]) ++ post) by (by rewrite <- app_assoc).
  rewrite IH.
  - by rewrite <- app_assoc.
  - rewrite <- app_assoc. simpl.
    rewrite map_app in *. simpl in *. done.
Qed.

(** [stringifyValues] on an object with distinct keys, in closed form. *)
Lemma stringifyValues_object props :
  NoDup (map fst props) ->
  stringifyValues (JObj props)
  = Normal (JObj (map (fun kv => (fst kv, normalized (snd kv)))
                      (clone_fields props))).
Proof.
  intros Hnd. unfold stringifyValues. simpl.
  fold (clone_fields props). f_equal.
  apply (stringify_loop [] (clone_fields props)). simpl.
  by apply clone_fields_NoDup.
Qed.

(** [stringifyValues] completes normally on every value. *)
Lemma stringifyValues_total v : exists w, stringifyValues v = Normal w.
Proof.
  unfold stringifyValues. destruct (truthy v) eqn:Et; simpl; [|eauto].
  destruct (JSON_roundtrip v) eqn:E; [eauto|].
  apply JSON_roundtrip_None in E. by subst.
Qed.

End JsonFacts.

(** For the field [configuredProperties] the handler stores the payload
    itself, whatever it is: the normalized value it computed is dropped. *)
Lemma handleEvent_set_configuredProperties s d value onSave :
  _integration s = Some d ->
  handleEvent
    (IntegrationSetProperty (AssignField "configuredProperties" value) onSave) s
  = maybeDoAction onSave
      (set_owned (with_field "configuredProperties" value d) s).
Proof.
  intros H. unfold handleEvent. run.
  destruct (stringifyValues_total value) as [w ->]. by rewrite H.
Qed.

(** C8, as stated, fails on a number that is not finite: [NaN] has type
  ['number'], the copy made first holds [null] in its place, and the
  loop turns that into the string ["null"]. *)
Lemma stringifyValues_changes_NaN :
let props := [("n", JNum NaN)] in
typeof (JNum NaN) = "number"
/\ stringifyValues (JObj props) = Normal (JObj [("n", JStr "null")])
/\ obj_get [("n", JStr "null")] "n" <> obj_get props "n".
Proof. split; [done|]. split; [by vm_compute|discriminate]. Qed.

(** C8, amended.  On a property map (an object, with distinct keys)
  [stringifyValues] returns an object in which
  - every value that is a string or a finite number is unchanged;
  - every other value except [undefined] (an object, an array, a
    boolean, [null], [NaN], an infinity) is replaced by the string that
    [JSON.stringify] gives for it;
  - a property whose value is [undefined] is left out, and no property
    is added;
  so every value of the result is a string or a finite number. *)
Theorem stringifyValues_spec (props : list (string * JsVal)) :
NoDup (map fst props) ->
exists out : list (string * JsVal),
  stringifyValues (JObj props) = Normal (JObj out) /\
  (forall k v, obj_get props k = Some v ->
     (is_string v = true \/ is_finite_number v = true ->
        obj_get out k = Some v) /\
     (is_string v = false -> is_finite_number v = false -> v <> JUndefined ->
        exists text, JSON_stringify v = Some text /\
                     obj_get out k = Some (JStr text)) /\
     (v = JUndefined -> obj_get out k = None)) /\
  (forall k, obj_get props k = None -> obj_get out k = None) /\
  (forall k w, obj_get out k = Some w ->
     is_string w = true \/ is_finite_number w = true).
Proof.
intros Hnd. eexists. split; [by apply stringifyValues_object|].
assert (Hget : forall k,
  obj_get (map (fun kv => (fst kv, normalized (snd kv))) (clone_fields props)) k
  = normalized <$> (obj_get props k ≫= JSON_roundtrip)).
{ intros k. by rewrite obj_get_map, obj_get_clone_fields. }
split; [|split].
- intros k v Hv. rewrite Hget, Hv. simpl.
  split; [|split].
  + intros Hs. rewrite (JSON_roundtrip_scalar v Hs). simpl.
    unfold normalized. destruct v as [ | | | [] | | | ]; simpl in *; try done;
      by destruct Hs.
  + intros Hs Hf Hu.
    destruct (JSON_roundtrip v) as [w|] eqn:E;
      [|by apply JSON_roundtrip_None in E].
    destruct (JSON_roundtrip_other v w Hs Hf E) as [Hws Hwn].
    simpl. unfold normalized. rewrite Hws, Hwn. simpl.
    rewrite (JSON_stringify_roundtrip v w E).
    destruct (JSON_stringify v) as [text|] eqn:Et;
      [|by apply JSON_stringify_None in Et].
    eauto.
  + by intros ->.
- intros k Hk. by rewrite Hget, Hk.
- intros k w. rewrite Hget.
  destruct (obj_get props k) as [v|]; simpl; [|done].
  destruct (JSON_roundtrip v) as [w'|] eqn:E; simpl; [|done].
  intros [= <-]. destruct (JSON_roundtrip_shape v w' E) as [Hu Hfin].
  unfold normalized.
  destruct (is_string w') eqn:Es; simpl; [by left|].
  destruct (is_number w') eqn:En; simpl; [right; by apply Hfin|].
  destruct (JSON_stringify w') eqn:Et; simpl; [by left|].
  by apply JSON_stringify_None in Et.
Qed.

(** The scenario of the specification: objects and arrays among the
  values become their JSON text, numbers stay. *)
Example stringifyValues_scenario :
stringifyValues
  (JObj [("count", JNum (Finite 5)); ("meta", JObj [("a", JNum (Finite 1))])])
= Normal (JObj [("count", JNum (Finite 5));
                ("meta", JStr (String "{" (quote "a" +:+ ":1}")))]).
Proof. by vm_compute. Qed.

(* ================================================================== *)
(** * The theorems at sample inputs *)
(* ================================================================== *)

(** [getLastPosition_spec] on a flow of three steps. *)
Lemma getLastPosition_spec_witness :
_integration (editing sample_flow) = Some sample_flow /\
exists last : Z,
  fst (getLastPosition (editing sample_flow)) = Normal (Some last) /\
  ((length (steps_of sample_flow) <= 1)%nat -> last = 1) /\
  ((1 < length (steps_of sample_flow))%nat ->
     last = Z.of_nat (length (steps_of sample_flow)) - 1) /\
  1 <= last.
Proof.
split; [reflexivity|].
apply (getLastPosition_spec (editing sample_flow) sample_flow). reflexivity.
Defined.

(** [remove_step_spec] at the middle position of a flow of three steps. *)
Lemma remove_step_spec_witness :
  _integration (editing sample_flow) = Some sample_flow /\
  (let arr := steps_of sample_flow in
   exists (last : Z) (arr' : JsArray Step),
     fst (getFirstPosition (editing sample_flow)) = Normal (Some 0) /\
     fst (getLastPosition (editing sample_flow)) = Normal (Some last) /\
     handleEvent (IntegrationRemoveStep 1 None) (editing sample_flow)
     = maybeDoAction None
         (set_owned (with_steps (Some arr') sample_flow) (editing sample_flow)) /\
     (1 = 0 \/ 1 = last ->
        (length arr <= length arr')%nat /\
        arr' !! Z.to_nat 1 = Some (Some blank_endpoint) /\
        stepKind blank_endpoint = Some "endpoint" /\
        connection blank_endpoint = None /\
        (forall k : nat, k <> Z.to_nat 1 -> (k < length arr)%nat ->
                         arr' !! k = arr !! k)) /\
     (0 < 1 < last ->
        (length arr' + 1 = length arr)%nat /\
        (forall k : nat, (k < Z.to_nat 1)%nat -> arr' !! k = arr !! k) /\
        (forall k : nat, (Z.to_nat 1 <= k)%nat -> arr' !! k = arr !! S k))).
Proof.
  split; [reflexivity|].
  apply (remove_step_spec (editing sample_flow) sample_flow 1 None). reflexivity.
Defined.

(** [insert_step_spec] after the first step of a flow of three steps. *)
Lemma insert_step_spec_witness :
_integration (editing sample_flow) = Some sample_flow /\
0 <= 0 < Z.of_nat (length (steps_of sample_flow)) /\
(let arr := steps_of sample_flow in
 exists arr' : JsArray Step,
   handleEvent (IntegrationInsertStep 0 None) (editing sample_flow)
   = maybeDoAction None
       (set_owned (with_steps (Some arr') sample_flow) (editing sample_flow)) /\
   length arr' = S (length arr) /\
   arr' !! Z.to_nat (0 + 1) = Some (Some createStep) /\
   (forall k : nat, (k <= Z.to_nat 0)%nat -> arr' !! k = arr !! k) /\
   (forall k : nat, (Z.to_nat 0 + 1 <= k)%nat -> arr' !! S k = arr !! k)).
Proof.
assert (Hp : 0 <= 0 < Z.of_nat (length (steps_of sample_flow)))
  by (simpl; lia).
split; [reflexivity|]. split; [exact Hp|].
apply (insert_step_spec (editing sample_flow) sample_flow 0 None);
  [reflexivity|exact Hp].
Defined.

(** [save_leaves_document] on a flow of three steps. *)
Lemma save_leaves_document_witness :
_integration (editing sample_flow) = Some sample_flow /\
(let s1 := snd (handleEvent (IntegrationSave None None) (editing sample_flow)) in
 exists d1 : Integration,
   _integration s1 = Some d1 /\
   tags d1 = tags sample_flow /\
   fields d1 = fields sample_flow /\
   steps_of d1 = steps_of sample_flow /\
   (is_Some (steps sample_flow) -> d1 = sample_flow) /\
   _loaded s1 = _loaded (editing sample_flow) /\
   heap (editing sample_flow) `prefix_of` heap s1 /\
   (forall r, r ∈ store s1 ->
      r ∈ store (editing sample_flow)
      \/ r = Detached (length (heap (editing sample_flow))))).
Proof.
split; [reflexivity|].
apply (save_leaves_document (editing sample_flow) sample_flow None None).
reflexivity.
Defined.

(** [save_tag_merge] on a flow with a repeated connector and a tag that
  is already there: the copy gets ["http"] once and ["sql"] not again. *)
Lemma save_tag_merge_witness :
_integration (editing tagged_flow) = Some tagged_flow /\
flow_connectorIds tagged_flow = Normal tagged_flow_ids /\
merge_tags (copied_tags tagged_flow) tagged_flow_ids
= [JStr "nightly"; JStr "sql"; JStr "http"] /\
(let merged := merge_tags (copied_tags tagged_flow) tagged_flow_ids in
 exists (s1 : CurrentFlow) (r : IntegrationRef) (saved : Integration),
   handleEvent (IntegrationSave None None) (editing tagged_flow)
   = (Normal tt, s1) /\
   store s1 = store (editing tagged_flow) ++ [r] /\
   deref r s1 = Some saved /\
   tags saved = Some merged /\
   copied_tags tagged_flow `prefix_of` merged /\
   (forall t, t ∈ merged -> t ∈ copied_tags tagged_flow \/ Some t ∈ tagged_flow_ids) /\
   (forall id, Some id ∈ tagged_flow_ids ->
      occurrences merged id
      = Nat.max 1 (occurrences (copied_tags tagged_flow) id)) /\
   (NoDup (copied_tags tagged_flow) -> NoDup merged) /\
   merge_tags merged tagged_flow_ids = merged /\
   (forall action' error', exists (s2 : CurrentFlow) (r2 : IntegrationRef)
                                  (saved2 : Integration),
      handleEvent (IntegrationSave action' error') s1 = (Normal tt, s2) /\
      store s2 = store s1 ++ [r2] /\
      deref r2 s2 = Some saved2 /\
      tags saved2 = Some merged)).
Proof.
split; [reflexivity|]. split; [reflexivity|]. split; [reflexivity|].
apply (save_tag_merge (editing tagged_flow) tagged_flow None None tagged_flow_ids);
  reflexivity.
Defined.

(** [stringifyValues_spec] on the payload [{count: 5, meta: {a: 1}}]. *)
Lemma stringifyValues_spec_witness :
NoDup (map fst [("count", JNum (Finite 5));
                ("meta", JObj [("a", JNum (Finite 1))])]) /\
exists out : list (string * JsVal),
  stringifyValues (JObj [("count", JNum (Finite 5));
                         ("meta", JObj [("a", JNum (Finite 1))])])
  = Normal (JObj out) /\
  (forall k v, obj_get [("count", JNum (Finite 5));
                        ("meta", JObj [("a", JNum (Finite 1))])] k = Some v ->
     (is_string v = true \/ is_finite_number v = true ->
        obj_get out k = Some v) /\
     (is_string v = false -> is_finite_number v = false -> v <> JUndefined ->
        exists text, JSON_stringify v = Some text /\
                     obj_get out k = Some (JStr text)) /\
     (v = JUndefined -> obj_get out k = None)) /\
  (forall k, obj_get [("count", JNum (Finite 5));
                      ("meta", JObj [("a", JNum (Finite 1))])] k = None ->
             obj_get out k = None) /\
  (forall k w, obj_get out k = Some w ->
     is_string w = true \/ is_finite_number w = true).
Proof.
assert (Hnd : NoDup (map fst [("count", JNum (Finite 5));
                              ("meta", JObj [("a", JNum (Finite 1))])])).
{ simpl. apply (bool_decide_unpack _). by vm_compute. }
split; [exact Hnd|].
apply (stringifyValues_spec _ Hnd).
Defined.

(* ================================================================== *)
(** * Scenarios *)
(* ================================================================== *)

(** A flow of two endpoints: first position 0, last position 1, not
    empty, nothing in the middle. *)
Example two_endpoints_positions :
  let s := editing (flow_of [Some (endpoint_of "sql"); Some (endpoint_of "http")]) in
  fst (getFirstPosition s) = Normal (Some 0) /\
  fst (getLastPosition s) = Normal (Some 1) /\
  fst (isEmpty s) = Normal false /\
  fst (getMiddleSteps s) = Normal [].
Proof. repeat split; by vm_compute. Qed.

(** [integration-remove-step] at position 0 of a flow of two steps puts a
    blank endpoint at position 0; the flow still has two steps. *)
Example remove_first_of_two :
  let s := editing (flow_of [Some (endpoint_of "sql"); Some (endpoint_of "http")]) in
  handleEvent (IntegrationRemoveStep 0 None) s
  = (Normal tt,
     editing (flow_of [Some blank_endpoint; Some (endpoint_of "http")])).
Proof. by vm_compute. Qed.

(** [integration-set-properties] at a position without a step creates
    the step, with the normalized properties. *)
Example set_properties_creates_step :
  let payload :=
    JObj [("count", JNum (Finite 5)); ("meta", JObj [("a", JNum (Finite 1))])] in
  let s := editing (flow_of []) in
  exists d1 st,
    _integration (snd (handleEvent (IntegrationSetProperties 0 payload None) s))
    = Some d1 /\
    steps d1 = Some [Some st] /\
    stringifyValues payload = Normal (configuredProperties st) /\
    stepKind st = None.
Proof.
  intros payload s.
  eexists _, _. split; [by vm_compute|]. split; [by vm_compute|].
  split; by vm_compute.
Qed.

(** On an empty flow, removing at the last position (1) leaves a hole at
    index 0 and the placeholder at index 1. *)
Example remove_last_of_empty :
  handleEvent (IntegrationRemoveStep 1 None) (editing (flow_of []))
  = (Normal tt, editing (flow_of [None; Some blank_endpoint])).
Proof. by vm_compute. Qed.

(* ================================================================== *)
(** * Further properties: the positional queries *)
(* ================================================================== *)

Lemma slice_0 {A} (arr : JsArray A) (p : Z) :
  Arr.slice arr 0 p = take (Arr.clamp (length arr) p) arr.
Proof.
  unfold Arr.slice. rewrite (clamp_in_range (length arr) 0) by lia.
  simpl. by rewrite Nat.sub_0_r.
Qed.

Lemma getPreviousSteps_owned s d p :
  _integration s = Some d ->
  getPreviousSteps p s
  = (Normal (Some (take (Arr.clamp (length (steps_of d)) p) (steps_of d))),
     touched s).
Proof.
  intros H. unfold getPreviousSteps, touched, steps_of. rewrite H.
  destruct (steps d) as [l|]; simpl; by rewrite slice_0.
Qed.

Lemma getSubsequentSteps_owned s d p :
  _integration s = Some d ->
  getSubsequentSteps p s
  = (Normal (Some (drop (Arr.clamp (length (steps_of d)) p) (steps_of d))),
     touched s).
Proof.
  intros H. unfold getSubsequentSteps, touched, steps_of. rewrite H.
  by destruct (steps d) as [l|].
Qed.

Lemma getPreviousConnections_owned s d p :
  _integration s = Some d ->
  getPreviousConnections p s
  = (Normal (Some (Arr.filter is_endpoint
                     (take (Arr.clamp (length (steps_of d)) p) (steps_of d)))),
     touched s).
Proof.
  intros H. unfold getPreviousConnections. run.
  by rewrite (getPreviousSteps_owned s d p H).
Qed.

Lemma getSubsequentConnections_at s d p :
  _integration s = Some d ->
  getSubsequentConnections p s
  = (Normal (Some (Arr.filter is_endpoint
                     (drop (Arr.clamp (length (steps_of d)) p) (steps_of d)))),
     touched s).
Proof.
  intros H. unfold getSubsequentConnections. run.
  by rewrite (getSubsequentSteps_owned s d p H).
Qed.

Lemma present_app {A} (a b : JsArray A) :
  Arr.present (a ++ b) = Arr.present a ++ Arr.present b.
Proof. unfold Arr.present. apply omap_app. Qed.

Lemma filter_app {A} (f : A -> bool) (a b : JsArray A) :
  Arr.filter f (a ++ b) = Arr.filter f a ++ Arr.filter f b.
Proof.
  unfold Arr.filter. by rewrite present_app, List.filter_app, map_app.
Qed.

Lemma elem_of_filter {A} (f : A -> bool) (arr : JsArray A) (slot : option A) :
  slot ∈ Arr.filter f arr <-> exists a, slot = Some a /\ Some a ∈ arr /\ f a = true.
Proof.
  unfold Arr.filter. rewrite list_elem_of_fmap. split.
  - intros (a & -> & Hin). apply list_elem_of_In, filter_In in Hin as [Hin Hf].
    exists a. split; [done|]. split; [|done].
    by apply elem_of_present, list_elem_of_In.
  - intros (a & -> & Hin & Hf). exists a. split; [done|].
    apply list_elem_of_In, filter_In. split; [|done].
    by apply list_elem_of_In, elem_of_present.
Qed.

(** X1.  On a loaded integration [getPreviousSteps(p)] and
    [getSubsequentSteps(p)] cut the flow in two at every [p]: put end to
    end they give the step array back.  For a position [0 <= p <= n] the
    first part has the [p] steps before the position, so the step at the
    position itself opens the second part. *)
Theorem previous_subsequent_partition (s : CurrentFlow) (d : Integration) (p : Z) :
  _integration s = Some d ->
  exists prev subs : JsArray Step,
    fst (getPreviousSteps p s) = Normal (Some prev) /\
    fst (getSubsequentSteps p s) = Normal (Some subs) /\
    prev ++ subs = steps_of d /\
    (0 <= p <= Z.of_nat (length (steps_of d)) ->
       length prev = Z.to_nat p /\
       subs !! 0%nat = steps_of d !! Z.to_nat p).
Proof.
  intros H. eexists _, _.
  rewrite (getPreviousSteps_owned s d p H), (getSubsequentSteps_owned s d p H).
  split; [done|]. split; [done|]. split; [apply take_drop|].
  intros Hp. rewrite clamp_in_range by done. split.
  - rewrite length_take. lia.
  - rewrite lookup_drop. f_equal. lia.
Qed.

(** X2.  On a loaded integration the connections before a position and
    those from the position on are, put end to end, all the connections
    of the flow ([getSubsequentConnections(0)]); each of them is a step of
    the flow with [stepKind] ['endpoint'], and neither list has a hole. *)
Theorem connections_partition (s : CurrentFlow) (d : Integration) (p : Z) :
  _integration s = Some d ->
  exists prev subs every : JsArray Step,
    fst (getPreviousConnections p s) = Normal (Some prev) /\
    fst (getSubsequentConnections p s) = Normal (Some subs) /\
    fst (getSubsequentConnections 0 s) = Normal (Some every) /\
    prev ++ subs = every /\
    (forall slot, slot ∈ every ->
       exists st, slot = Some st /\ Some st ∈ steps_of d /\
                  stepKind st = Some "endpoint").
Proof.
  intros H. eexists _, _, _.
  rewrite (getPreviousConnections_owned s d p H),
    (getSubsequentConnections_at s d p H),
    (getSubsequentConnections_owned s d H).
  split; [done|]. split; [done|]. split; [done|]. split.
  - by rewrite <- filter_app, take_drop.
  - intros slot Hin. apply elem_of_filter in Hin as (st & -> & Hin & He).
    exists st. split; [done|]. split; [done|].
    unfold is_endpoint in He. destruct (stepKind st) as [k|]; [|done].
    apply String.eqb_eq in He. by subst.
Qed.

(** Element [0] of a filtered array is the first element present that
    passes the test. *)
Lemma filter_first {A} (f : A -> bool) (l : JsArray A) :
  match Arr.get (Arr.filter f l) 0 with
  | Some a =>
      f a = true /\
      exists j : nat, l !! j = Some (Some a) /\
        forall (i : nat) b, (i < j)%nat -> l !! i = Some (Some b) -> f b = false
  | None => forall (j : nat) b, l !! j = Some (Some b) -> f b = false
  end.
Proof.
  unfold Arr.get, Arr.filter. simpl. change (Z.to_nat 0) with 0%nat.
  induction l as [|[a|] l IH]; simpl.
  - intros j b Hj. by rewrite lookup_nil in Hj.
  - unfold Arr.present. simpl. fold (Arr.present l).
    destruct (f a) eqn:Ef; simpl.
    + split; [done|]. exists 0%nat. split; [done|]. intros i b Hi. lia.
    + destruct (mjoin (map Some (List.filter f (Arr.present l)) !! 0%nat))
        as [a'|] eqn:E.
      * destruct IH as [Hf (j & Hj & Hbefore)]. split; [done|].
        exists (S j). split; [done|]. intros [|i] b Hi Hb.
        -- simpl in Hb. by injection Hb as ->.
        -- simpl in Hb. apply (Hbefore i b); [lia|done].
      * intros [|j] b Hb; simpl in Hb; [by injection Hb as ->|].
        by apply (IH j b).
  - unfold Arr.present. simpl. fold (Arr.present l).
    destruct (mjoin (map Some (List.filter f (Arr.present l)) !! 0%nat))
      as [a'|] eqn:E.
    + destruct IH as [Hf (j & Hj & Hbefore)]. split; [done|].
      exists (S j). split; [done|]. intros [|i] b Hi Hb; [done|].
      simpl in Hb. apply (Hbefore i b); [lia|done].
    + intros [|j] b Hb; simpl in Hb; [done|]. by apply (IH j b).
Qed.

(** Element [0] of a reversed filtered array is the last element present
    that passes the test. *)
Lemma filter_last {A} (f : A -> bool) (l : JsArray A) :
  match Arr.get (Arr.reverse (Arr.filter f l)) 0 with
  | Some a =>
      f a = true /\
      exists j : nat, l !! j = Some (Some a) /\
        forall (i : nat) b, (j < i)%nat -> l !! i = Some (Some b) -> f b = false
  | None => forall (j : nat) b, l !! j = Some (Some b) -> f b = false
  end.
Proof.
  unfold Arr.get, Arr.reverse. simpl. change (Z.to_nat 0) with 0%nat.
  induction l as [|x l IH] using rev_ind.
  - simpl. intros j b Hj. by rewrite lookup_nil in Hj.
  - rewrite filter_app, rev_app_distr.
    assert (Hold : forall (i : nat) b,
               (l ++ [x]) !! i = Some (Some b) -> (i < length l)%nat ->
               l !! i = Some (Some b)).
    { intros i b Hb Hi. by rewrite lookup_app_l in Hb. }
    destruct x as [a|].
    + unfold Arr.filter at 1, Arr.present. simpl. destruct (f a) eqn:Ef; simpl.
      * split; [done|]. exists (length l). split.
        -- rewrite lookup_app_r by done. by rewrite Nat.sub_diag.
        -- intros i b Hi Hb. apply lookup_lt_Some in Hb.
           rewrite length_app in Hb. simpl in Hb. lia.
      * destruct (mjoin (rev (Arr.filter f l) !! 0%nat)) as [a'|] eqn:E.
        -- destruct IH as [Hf (j & Hj & Hafter)]. split; [done|].
           exists j. split; [by rewrite lookup_app_l by (by eapply lookup_lt_Some)|].
           intros i b Hi Hb.
           destruct (Nat.lt_ge_cases i (length l)) as [Hlt|Hge].
           ++ apply (Hafter i b Hi). by apply Hold.
           ++ pose proof (lookup_lt_Some _ _ _ Hb) as Hlen.
              rewrite length_app in Hlen. simpl in Hlen.
              rewrite lookup_app_r in Hb by done.
              replace (i - length l)%nat with 0%nat in Hb by lia.
              simpl in Hb. by injection Hb as <-.
        -- intros j b Hb.
           destruct (Nat.lt_ge_cases j (length l)) as [Hlt|Hge].
           ++ apply (IH j b). by apply Hold.
           ++ pose proof (lookup_lt_Some _ _ _ Hb) as Hlen.
              rewrite length_app in Hlen. simpl in Hlen.
              rewrite lookup_app_r in Hb by done.
              replace (j - length l)%nat with 0%nat in Hb by lia.
              simpl in Hb. by injection Hb as <-.
    + unfold Arr.filter at 1, Arr.present. simpl.
      destruct (mjoin (rev (Arr.filter f l) !! 0%nat)) as [a'|] eqn:E.
      * destruct IH as [Hf (j & Hj & Hafter)]. split; [done|].
        exists j. split; [by rewrite lookup_app_l by (by eapply lookup_lt_Some)|].
        intros i b Hi Hb.
        destruct (Nat.lt_ge_cases i (length l)) as [Hlt|Hge].
        -- apply (Hafter i b Hi). by apply Hold.
        -- pose proof (lookup_lt_Some _ _ _ Hb) as Hlen.
           rewrite length_app in Hlen. simpl in Hlen.
           rewrite lookup_app_r in Hb by done.
           replace (i - length l)%nat with 0%nat in Hb by lia. done.
      * intros j b Hb.
        destruct (Nat.lt_ge_cases j (length l)) as [Hlt|Hge].
        -- apply (IH j b). by apply Hold.
        -- pose proof (lookup_lt_Some _ _ _ Hb) as Hlen.
           rewrite length_app in Hlen. simpl in Hlen.
           rewrite lookup_app_r in Hb by done.
           replace (j - length l)%nat with 0%nat in Hb by lia. done.
Qed.

(** X3.  On a loaded integration [getSubsequentConnection(p)], for a
    position [p >= 0], answers with the first endpoint step at an index
    not below [p]: if it returns a step, that step is an endpoint step of
    the flow at some index [j >= p] and no endpoint step lies from [p] up
    to [j]; if it returns [undefined], no endpoint step lies at or after
    [p]. *)
Theorem getSubsequentConnection_nearest (s : CurrentFlow) (d : Integration) (p : Z) :
  _integration s = Some d ->
  0 <= p ->
  exists r : option Step,
    fst (getSubsequentConnection p s) = Normal r /\
    match r with
    | Some st =>
        is_endpoint st = true /\
        exists j : nat, (Z.to_nat p <= j)%nat /\
          steps_of d !! j = Some (Some st) /\
          forall (i : nat) st', (Z.to_nat p <= i < j)%nat ->
            steps_of d !! i = Some (Some st') -> is_endpoint st' = false
    | None =>
        forall (j : nat) st', (Z.to_nat p <= j)%nat ->
          steps_of d !! j = Some (Some st') -> is_endpoint st' = false
    end.
Proof.
  intros H Hp. unfold getSubsequentConnection. run.
  rewrite (getSubsequentConnections_at s d p H).
  set (arr := steps_of d). set (k := Arr.clamp (length arr) p).
  assert (Hk : k = Nat.min (Z.to_nat p) (length arr)).
  { unfold k, Arr.clamp. destruct (Z.ltb_spec p 0); lia. }
  eexists. split; [reflexivity|].
  pose proof (filter_first is_endpoint (drop k arr)) as Hfirst.
  destruct (Arr.get (Arr.filter is_endpoint (drop k arr)) 0) as [st|].
  - destruct Hfirst as [He (j & Hj & Hbefore)]. split; [done|].
    rewrite lookup_drop in Hj. exists (k + j)%nat.
    pose proof (lookup_lt_Some _ _ _ Hj) as Hlt.
    split; [lia|]. split; [done|].
    intros i st' Hi Hst'. apply (Hbefore (i - k)%nat st'); [lia|].
    rewrite lookup_drop. by replace (k + (i - k))%nat with i by lia.
  - intros j st' Hj Hst'. pose proof (lookup_lt_Some _ _ _ Hst') as Hlt.
    apply (Hfirst (j - k)%nat st').
    rewrite lookup_drop. by replace (k + (j - k))%nat with j by lia.
Qed.

(** X4.  On a loaded integration [getPreviousConnection(p)], for a
    position [p >= 0], answers with the last endpoint step before [p]: if
    it returns a step, that step is an endpoint step of the flow at some
    index [j < p] and no endpoint step lies between [j] and [p]; if it
    returns [undefined], no endpoint step lies before [p]. *)
Theorem getPreviousConnection_nearest (s : CurrentFlow) (d : Integration) (p : Z) :
  _integration s = Some d ->
  0 <= p ->
  exists r : option Step,
    fst (getPreviousConnection p s) = Normal r /\
    match r with
    | Some st =>
        is_endpoint st = true /\
        exists j : nat, (j < Z.to_nat p)%nat /\
          steps_of d !! j = Some (Some st) /\
          forall (i : nat) st', (j < i < Z.to_nat p)%nat ->
            steps_of d !! i = Some (Some st') -> is_endpoint st' = false
    | None =>
        forall (j : nat) st', (j < Z.to_nat p)%nat ->
          steps_of d !! j = Some (Some st') -> is_endpoint st' = false
    end.
Proof.
  intros H Hp. unfold getPreviousConnection. run.
  rewrite (getPreviousConnections_owned s d p H).
  set (arr := steps_of d). set (k := Arr.clamp (length arr) p).
  assert (Hk : k = Nat.min (Z.to_nat p) (length arr)).
  { unfold k, Arr.clamp. destruct (Z.ltb_spec p 0); lia. }
  eexists. split; [reflexivity|].
  pose proof (filter_last is_endpoint (take k arr)) as Hlast.
  destruct (Arr.get (Arr.reverse (Arr.filter is_endpoint (take k arr))) 0) as [st|].
  - destruct Hlast as [He (j & Hj & Hafter)]. split; [done|].
    pose proof (lookup_lt_Some _ _ _ Hj) as Hlt. rewrite length_take in Hlt.
    rewrite lookup_take_lt in Hj by lia.
    exists j. split; [lia|]. split; [done|].
    intros i st' Hi Hst'. pose proof (lookup_lt_Some _ _ _ Hst') as Hlti.
    apply (Hafter i st'); [lia|]. rewrite lookup_take_lt by lia. done.
  - intros j st' Hj Hst'. pose proof (lookup_lt_Some _ _ _ Hst') as Hlt.
    apply (Hlast j st'). rewrite lookup_take_lt by lia. done.
Qed.

Lemma get_integration_touched s d :
  _integration s = Some d -> get_integration (touched s) = (Normal (Some Owned), touched s).
Proof. intros H. eapply get_integration_owned. by apply touched_owned. Qed.

Lemma get_steps_touched s d :
  _integration s = Some d ->
  get_steps (touched s) = (Normal (Some (steps_of d)), touched s).
Proof.
  intros H. rewrite (get_steps_owned _ _ (touched_owned s d H)).
  by rewrite touched_idem.
Qed.

Lemma getStep_owned s d p :
  _integration s = Some d ->
  getStep (Some p) s = (Normal (Arr.get (steps_of d) p), touched s).
Proof.
  intros H. unfold getStep. run.
  by rewrite (get_integration_owned s d H), (get_steps_owned s d H).
Qed.

Lemma getStep_touched s d p :
  _integration s = Some d ->
  getStep (Some p) (touched s) = (Normal (Arr.get (steps_of d) p), touched s).
Proof.
  intros H. rewrite (getStep_owned _ _ p (touched_owned s d H)).
  by rewrite touched_idem.
Qed.

Lemma getStartStep_owned s d :
  _integration s = Some d ->
  getStartStep s = (Normal (Arr.get (steps_of d) 0), touched s).
Proof.
  intros H. unfold getStartStep. run.
  by rewrite (getFirstPosition_owned s d H), (getStep_owned s d 0 H).
Qed.

Lemma getEndStep_owned s d :
  _integration s = Some d ->
  getEndStep s
  = (Normal (Arr.get (steps_of d)
               (if Z.of_nat (length (steps_of d)) <=? 1 then 1
                else Z.of_nat (length (steps_of d)) - 1)),
     touched s).
Proof.
  intros H. unfold getEndStep. run. rewrite (getLastPosition_owned s d H).
  destruct (Z.leb_spec (Z.of_nat (length (steps_of d))) 1).
  - simpl. by rewrite (getStep_touched s d 1 H).
  - destruct (Z.ltb_spec (Z.of_nat (length (steps_of d)) - 1) 1); [lia|].
    by rewrite (getStep_touched s d _ H).
Qed.

Lemma getMiddleSteps_owned s d :
  _integration s = Some d ->
  getMiddleSteps s
  = (Normal (if Z.of_nat (length (steps_of d)) <=? 2 then []
             else Arr.slice (steps_of d) 1 (-1)),
     touched s).
Proof.
  intros H. unfold getMiddleSteps. run. rewrite (getLastPosition_owned s d H).
  destruct (Z.leb_spec (Z.of_nat (length (steps_of d))) 1) as [Hle|Hgt].
  - simpl. by destruct (Z.leb_spec (Z.of_nat (length (steps_of d))) 2); [|lia].
  - destruct (Z.ltb_spec (Z.of_nat (length (steps_of d)) - 1) 2) as [Hl|Hl].
    + by destruct (Z.leb_spec (Z.of_nat (length (steps_of d))) 2); [|lia].
    + rewrite !(get_steps_touched s d H).
      by destruct (Z.leb_spec (Z.of_nat (length (steps_of d))) 2); [lia|].
Qed.

(** X5.  On a loaded integration with at least two steps the start step,
    the middle steps and the end step are the whole flow, in this order:
    the step array is the slot [getStartStep()] reads, then
    [getMiddleSteps()], then the slot [getEndStep()] reads. *)
Theorem flow_decomposition (s : CurrentFlow) (d : Integration) :
  _integration s = Some d ->
  (2 <= length (steps_of d))%nat ->
  exists (first last : option Step) (middle : JsArray Step),
    fst (getStartStep s) = Normal first /\
    fst (getEndStep s) = Normal last /\
    fst (getMiddleSteps s) = Normal middle /\
    steps_of d = first :: middle ++ [last].
Proof.
  intros H Hn.
  rewrite (getStartStep_owned s d H), (getEndStep_owned s d H),
    (getMiddleSteps_owned s d H).
  eexists _, _, _. split; [done|]. split; [done|]. split; [done|]. simpl.
  destruct (steps_of d) as [|x rest]; [simpl in Hn; lia|].
  destruct rest as [|y init _] using rev_ind; [simpl in Hn; lia|].
  simpl length. rewrite length_app. simpl length.
  destruct (Z.leb_spec (Z.of_nat (S (length init + 1))) 1); [lia|].
  unfold Arr.get.
  destruct (Z.ltb_spec (Z.of_nat (S (length init + 1)) - 1) 0); [lia|].
  replace (Z.to_nat (Z.of_nat (S (length init + 1)) - 1))
    with (S (length init)) by lia.
  simpl. rewrite lookup_app_r by done. rewrite Nat.sub_diag. simpl.
  f_equal.
  destruct (Z.leb_spec (Z.of_nat (S (length init + 1))) 2) as [Hle|Hgt].
  - destruct init; [done|simpl in Hle; lia].
  - unfold Arr.slice, Arr.clamp. simpl length. rewrite length_app. simpl.
    replace (Z.to_nat (Z.min 1 (Z.of_nat (S (length init + 1))))) with 1%nat by lia.
    replace (Z.to_nat (Z.max (Z.of_nat (S (length init + 1)) + -1) 0) - 1)%nat
      with (length init) by lia.
    simpl. rewrite drop_0. by rewrite take_app_length.
Qed.

(** X6.  On a loaded integration with at most one step there is no end
    step: [getLastPosition()] is 1, where no step lies, so [getEndStep()]
    and [getEndConnection()] return [undefined] and [getMiddleSteps()] is
    empty, while [getStartStep()] still reads slot 0. *)
Theorem short_flow_has_no_end_step (s : CurrentFlow) (d : Integration) :
  _integration s = Some d ->
  (length (steps_of d) <= 1)%nat ->
  fst (getEndStep s) = Normal None /\
  fst (getEndConnection s) = Normal None /\
  fst (getMiddleSteps s) = Normal [] /\
  fst (getStartStep s) = Normal (mjoin (steps_of d !! 0%nat)).
Proof.
  intros H Hn.
  assert (He : getEndStep s = (Normal None, touched s)).
  { rewrite (getEndStep_owned s d H).
    destruct (Z.leb_spec (Z.of_nat (length (steps_of d))) 1); [|lia].
    unfold Arr.get. simpl. rewrite lookup_ge_None_2 by (simpl; lia). done. }
  split; [by rewrite He|].
  split. { unfold getEndConnection. run. by rewrite He. }
  split.
  - rewrite (getMiddleSteps_owned s d H).
    by destruct (Z.leb_spec (Z.of_nat (length (steps_of d))) 2); [|lia].
  - by rewrite (getStartStep_owned s d H).
Qed.

(** X7.  On a loaded integration [getMiddlePosition()] is half the last
    position, rounded up: it is never the first position, never beyond
    the last, and from three steps on it lies strictly between the two. *)
Theorem getMiddlePosition_between (s : CurrentFlow) (d : Integration) :
  _integration s = Some d ->
  exists middle last : Z,
    fst (getMiddlePosition s) = Normal (Some middle) /\
    fst (getLastPosition s) = Normal (Some last) /\
    0 < middle <= last /\
    last <= 2 * middle <= last + 1 /\
    ((3 <= length (steps_of d))%nat -> middle < last).
Proof.
  intros H. unfold getMiddlePosition. run.
  rewrite (getLastPosition_owned s d H). simpl.
  eexists _, _. split; [reflexivity|]. split; [reflexivity|].
  set (n := Z.of_nat (length (steps_of d))).
  assert (Hn : 0 <= n) by lia.
  destruct (Z.leb_spec n 1).
  - split; [by vm_compute|]. split; [by vm_compute|]. lia.
  - pose proof (Z.div_mod (n - 1 + 1) 2 ltac:(lia)) as Hdm.
    pose proof (Z.mod_pos_bound (n - 1 + 1) 2 ltac:(lia)) as Hmod.
    split; [lia|]. split; [lia|]. lia.
Qed.

Lemma isEmpty_owned s d :
  _integration s = Some d ->
  isEmpty s = (Normal (Z.of_nat (length (steps_of d)) =? 0), touched s).
Proof.
  intros H. unfold isEmpty. run.
  by rewrite (get_integration_owned s d H), (steps_length_owned s d H).
Qed.

Lemma atEnd_owned s d p :
  _integration s = Some d ->
  atEnd p s = (Normal (Z.of_nat (length (steps_of d)) <=? p), touched s).
Proof.
  intros H. unfold atEnd. run.
  by rewrite (get_integration_owned s d H), (steps_length_owned s d H).
Qed.

(** X8.  On a loaded integration [atEnd(p)] tells whether [p] is past the
    step array: it is true exactly when [p >= length], and then
    [getStep(p)] returns [undefined]; when it is false for a [p >= 0],
    [getStep(p)] reads a slot of the array.  [isEmpty()] is true exactly
    when the array has no slot, that is when [atEnd(0)]. *)
Theorem atEnd_spec (s : CurrentFlow) (d : Integration) (p : Z) :
  _integration s = Some d ->
  exists e a a0 : bool,
    fst (isEmpty s) = Normal e /\
    fst (atEnd p s) = Normal a /\
    fst (atEnd 0 s) = Normal a0 /\
    (a = true <-> Z.of_nat (length (steps_of d)) <= p) /\
    (e = true <-> steps_of d = []) /\
    e = a0 /\
    (a = true -> fst (getStep (Some p) s) = Normal None) /\
    (a = false -> 0 <= p ->
       exists slot, steps_of d !! Z.to_nat p = Some slot /\
                    fst (getStep (Some p) s) = Normal slot).
Proof.
  intros H.
  rewrite (isEmpty_owned s d H), (atEnd_owned s d p H), (atEnd_owned s d 0 H),
    (getStep_owned s d p H).
  eexists _, _, _. split; [done|]. split; [done|]. split; [done|]. simpl.
  split; [apply Z.leb_le|].
  split. { rewrite Z.eqb_eq. destruct (steps_of d); simpl; split; (done || lia). }
  split. { destruct (steps_of d); simpl; [done|]. by vm_compute. }
  split.
  - intros Ha. apply Z.leb_le in Ha. unfold Arr.get.
    destruct (Z.ltb_spec p 0); [done|].
    rewrite lookup_ge_None_2 by lia. done.
  - intros Ha Hp. apply Z.leb_gt in Ha. unfold Arr.get.
    destruct (Z.ltb_spec p 0); [lia|].
    destruct (lookup_lt_is_Some_2 (steps_of d) (Z.to_nat p)) as [slot Hs]; [lia|].
    exists slot. by rewrite Hs.
Qed.

(* ================================================================== *)
(** * Further properties: the commands *)
(* ================================================================== *)

Lemma handleEvent_insert_connection s d position onSave :
  _integration s = Some d ->
  handleEvent (IntegrationInsertConnection position onSave) s
  = maybeDoAction onSave
      (set_owned
         (with_steps
            (Some (Arr.splice (steps_of d) (position + 1) 0 [Some blank_endpoint])) d)
         s).
Proof.
  intros H. unfold handleEvent, insertConnectionAfter. run.
  by rewrite (mutate_steps_owned s d _ H).
Qed.






(** X10.  With no integration every command other than
    [integration-updated] (and the kinds the handler does not know)
    throws, leaves the state as it was, and does not call its
    continuation: the editing commands throw a TypeError and
    [integration-save] a SyntaxError; the store gets no request. *)
Theorem commands_throw_unloaded (event : FlowEvent) (loaded : bool)
        (h : list Integration) (q : list IntegrationRef) :
  needs_integration event = true ->
  exists e : JsError,
    handleEvent event (unloaded loaded h q) = (Throw e, unloaded loaded h q) /\
    (match event, e with
     | IntegrationSave _ _, SyntaxError _ => True
     | IntegrationSave _ _, _ => False
     | _, TypeError _ => True
     | _, _ => False
     end).
Proof.
  intros Hn. destruct event; simpl in Hn; try discriminate.
  - eexists. split; [reflexivity|done].
  - eexists. split; [reflexivity|done].
  - eexists. split; [reflexivity|done].
  - eexists. split; [reflexivity|done].
  - destruct (stringifyValues_total properties) as [w Hw].
    eexists. split; [|shelve]. unfold handleEvent. run. rewrite Hw. reflexivity.
    Unshelve. done.
  - eexists. split; [reflexivity|done].
  - eexists. split; [reflexivity|done].
  - destruct assignment as [v|v|property v].
    + eexists. split; [reflexivity|done].
    + eexists. split; [reflexivity|done].
    + unfold handleEvent. run.
      destruct (String.eqb property "configuredProperties").
      * destruct (stringifyValues_total v) as [w ->].
        eexists. split; [reflexivity|done].
      * eexists. split; [reflexivity|done].
  - eexists. split; [reflexivity|done].
Qed.

Lemma splice_insert_clamped {A} (arr : JsArray A) (i : Z) (slot : option A) :
  Arr.splice arr i 0 [slot]
  = take (Arr.clamp (length arr) i) arr ++ slot :: drop (Arr.clamp (length arr) i) arr.
Proof.
  unfold Arr.splice. pose proof (clamp_le (length arr) i) as Hk.
  replace (Z.to_nat (Z.min (Z.max 0 0)
             (Z.of_nat (length arr) - Z.of_nat (Arr.clamp (length arr) i))))
    with 0%nat by lia.
  by rewrite Nat.add_0_r.
Qed.

Lemma splice_delete_past_end {A} (arr : JsArray A) (i : Z) :
  Z.of_nat (length arr) <= i -> Arr.splice arr i 1 [] = arr.
Proof.
  intros Hi. unfold Arr.splice, Arr.clamp.
  destruct (Z.ltb_spec i 0); [lia|].
  replace (Z.to_nat (Z.min i (Z.of_nat (length arr)))) with (length arr) by lia.
  rewrite firstn_all, skipn_all2 by lia. simpl. by rewrite app_nil_r.
Qed.

(** X11.  Inserting a step after a position [0 <= p < n] and then
    removing at [p + 1] undoes the insertion when a step followed [p]:
    the flow is as before.  After the last step it does not: the new step
    is then the last one, so removing it leaves a blank endpoint there and
    the flow is one step longer than before. *)
Theorem insert_then_remove (s : CurrentFlow) (d : Integration) (p : Z) :
  _integration s = Some d ->
  0 <= p < Z.of_nat (length (steps_of d)) ->
  exists s1 : CurrentFlow,
    handleEvent (IntegrationInsertStep p None) s = (Normal tt, s1) /\
    (p + 1 < Z.of_nat (length (steps_of d)) ->
       handleEvent (IntegrationRemoveStep (p + 1) None) s1
       = (Normal tt, set_owned (with_steps (Some (steps_of d)) d) s)) /\
    (p + 1 = Z.of_nat (length (steps_of d)) ->
       handleEvent (IntegrationRemoveStep (p + 1) None) s1
       = (Normal tt,
          set_owned
            (with_steps (Some (steps_of d ++ [Some blank_endpoint])) d) s)).
Proof.
  intros H Hp. set (arr := steps_of d) in *.
  set (arr1 := Arr.splice arr (p + 1) 0 [Some createStep]).
  exists (set_owned (with_steps (Some arr1) d) s).
  split; [by rewrite (handleEvent_insert_step s d p None H)|].
  assert (Harr1 : arr1 = take (Z.to_nat (p + 1)) arr
                         ++ Some createStep :: drop (Z.to_nat (p + 1)) arr).
  { unfold arr1. apply splice_insert. lia. }
  assert (Hlen1 : length arr1 = S (length arr)).
  { rewrite Harr1. apply take_drop_insert_length. }
  assert (Hrun : forall arr2,
    removed arr1 (p + 1) = arr2 ->
    handleEvent (IntegrationRemoveStep (p + 1) None)
      (set_owned (with_steps (Some arr1) d) s)
    = (Normal tt, set_owned (with_steps (Some arr2) d) s)).
  { intros arr2 <-.
    by rewrite (handleEvent_remove_step (set_owned (with_steps (Some arr1) d) s)
                  (with_steps (Some arr1) d) (p + 1) None eq_refl). }
  split; intros Hcase; apply Hrun; unfold removed; rewrite Hlen1.
  - destruct (Z.leb_spec (Z.of_nat (S (length arr))) 1); [lia|].
    rewrite bool_decide_eq_false_2 by lia.
    rewrite splice_delete by lia. rewrite Harr1.
    rewrite take_app_length' by (rewrite length_take; lia).
    rewrite drop_app_ge by (rewrite length_take; lia).
    rewrite length_take.
    replace (S (Z.to_nat (p + 1)) - Z.to_nat (p + 1) `min` length arr)%nat
      with 1%nat by lia.
    simpl. rewrite drop_0. apply take_drop.
  - destruct (Z.leb_spec (Z.of_nat (S (length arr))) 1); [lia|].
    rewrite bool_decide_eq_true_2 by lia.
    unfold Arr.set. destruct (Z.ltb_spec (p + 1) 0); [lia|].
    destruct (Nat.ltb_spec (Z.to_nat (p + 1)) (length arr1)); [|lia].
    rewrite Harr1.
    replace (Z.to_nat (p + 1)) with (length arr) by lia.
    rewrite firstn_all, skipn_all. 
    by rewrite insert_app_r_alt, Nat.sub_diag by done.
Qed.

(** X12.  [integration-insert-connection] adds exactly one connection to
    the flow wherever it inserts, and [integration-insert-step] adds
    none: after the first, [getSubsequentConnections(0)] is one longer,
    after the second it is the same list. *)
Theorem insert_counts_connections (s : CurrentFlow) (d : Integration) (p : Z) :
  _integration s = Some d ->
  exists (conns conns1 conns2 : JsArray Step) (s1 s2 : CurrentFlow),
    fst (getSubsequentConnections 0 s) = Normal (Some conns) /\
    handleEvent (IntegrationInsertConnection p None) s = (Normal tt, s1) /\
    fst (getSubsequentConnections 0 s1) = Normal (Some conns1) /\
    length conns1 = S (length conns) /\
    handleEvent (IntegrationInsertStep p None) s = (Normal tt, s2) /\
    fst (getSubsequentConnections 0 s2) = Normal (Some conns2) /\
    conns2 = conns.
Proof.
  intros H. set (arr := steps_of d).
  set (k := Arr.clamp (length arr) (p + 1)).
  set (d1 := with_steps
               (Some (Arr.splice arr (p + 1) 0 [Some blank_endpoint])) d).
  set (d2 := with_steps (Some (Arr.splice arr (p + 1) 0 [Some createStep])) d).
  exists (Arr.filter is_endpoint arr),
    (Arr.filter is_endpoint (take k arr ++ Some blank_endpoint :: drop k arr)),
    (Arr.filter is_endpoint (take k arr ++ Some createStep :: drop k arr)),
    (set_owned d1 s), (set_owned d2 s).
  split; [by rewrite (getSubsequentConnections_owned s d H)|].
  split; [by rewrite (handleEvent_insert_connection s d p None H)|].
  split.
  { rewrite (getSubsequentConnections_owned (set_owned d1 s) d1 eq_refl).
    simpl. unfold steps_of. simpl. by rewrite splice_insert_clamped. }
  split.
  { rewrite <- (take_drop k arr) at 3.
    rewrite !filter_app, !length_app.
    change (Some blank_endpoint :: drop k arr)
      with ([Some blank_endpoint] ++ drop k arr).
    rewrite filter_app, length_app. simpl. lia. }
  split; [by rewrite (handleEvent_insert_step s d p None H)|].
  split.
  { rewrite (getSubsequentConnections_owned (set_owned d2 s) d2 eq_refl).
    simpl. unfold steps_of. simpl. by rewrite splice_insert_clamped. }
  rewrite <- (take_drop k arr) at 3.
  change (Some createStep :: drop k arr) with ([Some createStep] ++ drop k arr).
  by rewrite !filter_app.
Qed.

Lemma array_map_all_Normal {A B} (f : A -> Completion B) (arr : JsArray A) :
  (forall a, Some a ∈ arr -> exists b, f a = Normal b) <->
  exists out, array_map f arr = Normal out.
Proof.
  induction arr as [|[a|] arr IH]; simpl.
  - split; [eauto|]. intros _ a Ha. by apply elem_of_nil in Ha.
  - split.
    + intros Hall. destruct (Hall a) as [b ->]; [by left|].
      destruct (proj1 IH) as [out ->]; [|eauto].
      intros a' Ha'. apply Hall. by right.
    + intros [out Hout] a' Ha'.
      destruct (f a) as [b|] eqn:Ef; [|done].
      destruct (array_map f arr) as [out'|] eqn:Em; [|done].
      apply elem_of_cons in Ha' as [[= ->]|Ha']; [eauto|].
      apply (proj2 IH); eauto.
  - split.
    + intros Hall. destruct (proj1 IH) as [out ->]; [|eauto].
      intros a' Ha'. apply Hall. by right.
    + intros [out Hout] a' Ha'.
      destruct (array_map f arr) as [out'|] eqn:Em; [|done].
      apply elem_of_cons in Ha' as [?|Ha']; [done|].
      apply (proj2 IH); eauto.
Qed.

(** X13.  On a loaded integration the synchronous part of
    [integration-save] completes normally exactly when every endpoint
    step of the flow has a connection; it then hands one request to the
    store.  Otherwise it throws and the store gets no request. *)
Theorem save_completes_iff (s : CurrentFlow) (d : Integration)
        (action : option (Integration -> Callback))
        (error : option (JsVal -> Callback)) :
  _integration s = Some d ->
  (fst (handleEvent (IntegrationSave action error) s) = Normal tt
   <-> forall st, Some st ∈ steps_of d -> is_endpoint st = true ->
                  is_Some (connection st))
  /\ (fst (handleEvent (IntegrationSave action error) s) = Normal tt ->
      length (store (snd (handleEvent (IntegrationSave action error) s)))
      = S (length (store s)))
  /\ (fst (handleEvent (IntegrationSave action error) s) <> Normal tt ->
      store (snd (handleEvent (IntegrationSave action error) s)) = store s).
Proof.
  intros H. rewrite (handleEvent_save_owned s d action error H).
  assert (Hiff : (exists ids, flow_connectorIds d = Normal ids)
                 <-> forall st, Some st ∈ steps_of d -> is_endpoint st = true ->
                                is_Some (connection st)).
  { unfold flow_connectorIds. rewrite <- array_map_all_Normal. split.
    - intros Hall st Hin He.
      destruct (Hall st) as [b Hb].
      { apply elem_of_filter. eauto. }
      unfold connectorId_of in Hb. by destruct (connection st).
    - intros Hall st Hin.
      apply elem_of_filter in Hin as (st' & [= <-] & Hin & He).
      destruct (Hall st Hin He) as [c Hc].
      unfold connectorId_of. rewrite Hc. eauto. }
  destruct (flow_connectorIds d) as [ids|e] eqn:E; simpl.
  - split; [split; [intros _; apply Hiff; eauto|done]|].
    split; [intros _|done].
    rewrite ?touched_store, length_app. simpl. lia.
  - split; [split; [done|]|].
    + intros Hall. apply Hiff in Hall as [ids Hids]. discriminate.
    + split; [done|]. intros _. by rewrite ?touched_store.
Qed.

Lemma bounded_removed arr position :
  0 <= position -> bounded_by_endpoints arr ->
  bounded_by_endpoints (removed arr position).
Proof.
  intros Hpos (Hn & (a & Ha & Hea) & (b & Hb & Heb)). unfold removed.
  destruct (Z.leb_spec (Z.of_nat (length arr)) 1); [lia|].
  case_bool_decide as Hcase.
  - assert (Hlen : length (Arr.set arr position blank_endpoint) = length arr).
    { rewrite set_length by done. lia. }
    unfold bounded_by_endpoints. rewrite Hlen. split; [done|].
    destruct Hcase as [-> | ->].
    + split.
      * exists blank_endpoint. split; [|done]. by apply (set_slot_eq arr 0).
      * exists b. split; [|done]. rewrite set_slot_ne; [done| simpl; lia | lia].
    + split.
      * exists a. split; [|done]. rewrite set_slot_ne; [done| lia | lia].
      * exists blank_endpoint. split; [|done].
        rewrite <- (set_slot_eq arr (Z.of_nat (length arr) - 1) blank_endpoint)
          by lia.
        f_equal. lia.
  - destruct (Z.lt_ge_cases position (Z.of_nat (length arr))) as [Hin|Hout].
    + rewrite splice_delete by lia.
      assert (Hk : (Z.to_nat position < length arr)%nat) by lia.
      pose proof (take_drop_delete_length arr _ Hk) as Hlen.
      unfold bounded_by_endpoints. split; [lia|]. split.
      * exists a. split; [|done].
        rewrite take_drop_delete_before; [done|lia|done].
      * exists b. split; [|done].
        rewrite take_drop_delete_after; [|lia|done].
        rewrite <- Hb. f_equal. lia.
    + rewrite splice_delete_past_end by lia.
      split; [done|]. split; eauto.
Qed.

Lemma bounded_insert arr k (x : Step) :
  (k <= length arr)%nat -> is_endpoint x = true ->
  bounded_by_endpoints arr ->
  bounded_by_endpoints (take k arr ++ Some x :: drop k arr).
Proof.
  intros Hk Hx (Hn & (a & Ha & Hea) & (b & Hb & Heb)).
  unfold bounded_by_endpoints. rewrite take_drop_insert_length.
  split; [lia|]. split.
  - destruct k as [|k].
    + exists x. split; [|done]. by rewrite take_0.
    + exists a. split; [|done]. rewrite take_drop_insert_before; [done|lia|done].
  - replace (S (length arr) - 1)%nat with (length arr) by lia.
    destruct (decide (k = length arr)) as [->|Hne].
    + exists x. split; [|done]. by apply take_drop_insert_at.
    + exists b. split; [|done].
      replace (length arr) with (S (length arr - 1)) at 1 by lia.
      rewrite take_drop_insert_after; [done|lia|done].
Qed.

Lemma bounded_insert_inside arr k slot :
  (1 <= k < length arr)%nat ->
  bounded_by_endpoints arr ->
  bounded_by_endpoints (take k arr ++ slot :: drop k arr).
Proof.
  intros Hk (Hn & (a & Ha & Hea) & (b & Hb & Heb)).
  unfold bounded_by_endpoints. rewrite take_drop_insert_length.
  split; [lia|]. split.
  - exists a. split; [|done]. rewrite take_drop_insert_before; [done|lia|lia].
  - exists b. split; [|done].
    replace (S (length arr) - 1)%nat with (S (length arr - 1)) by lia.
    rewrite take_drop_insert_after; [done|lia|lia].
Qed.

(** X14.  A loaded flow of at least two steps that begins and ends with
    an endpoint step keeps this shape under [integration-remove-step] at
    every position [>= 0], under [integration-insert-connection] at every
    position, and under [integration-insert-step] after every step but
    the last. *)
Theorem endpoints_at_both_ends_kept (s : CurrentFlow) (d : Integration) :
  _integration s = Some d ->
  bounded_by_endpoints (steps_of d) ->
  (forall position onSave, 0 <= position ->
     exists arr' : JsArray Step,
       handleEvent (IntegrationRemoveStep position onSave) s
       = maybeDoAction onSave (set_owned (with_steps (Some arr') d) s) /\
       bounded_by_endpoints arr') /\
  (forall position onSave,
     exists arr' : JsArray Step,
       handleEvent (IntegrationInsertConnection position onSave) s
       = maybeDoAction onSave (set_owned (with_steps (Some arr') d) s) /\
       bounded_by_endpoints arr') /\
  (forall position onSave,
     0 <= position < Z.of_nat (length (steps_of d)) - 1 ->
     exists arr' : JsArray Step,
       handleEvent (IntegrationInsertStep position onSave) s
       = maybeDoAction onSave (set_owned (with_steps (Some arr') d) s) /\
       bounded_by_endpoints arr').
Proof.
  intros H Hb. split; [|split].
  - intros position onSave Hpos. eexists.
    split; [by apply handleEvent_remove_step|]. by apply bounded_removed.
  - intros position onSave. eexists.
    split; [by apply handleEvent_insert_connection|].
    rewrite splice_insert_clamped.
    apply bounded_insert; [apply clamp_le|done|done].
  - intros position onSave Hpos. eexists.
    split; [by apply handleEvent_insert_step|].
    rewrite splice_insert by lia.
    apply bounded_insert_inside; [lia|done].
Qed.

(* ================================================================== *)
(** * Further properties: normalization and the set commands *)
(* ================================================================== *)

Lemma clone_fields_values props kv :
  kv ∈ clone_fields props -> exists v, JSON_roundtrip v = Some (snd kv).
Proof.
  unfold clone_fields. rewrite list_elem_of_omap.
  intros ([k v] & _ & Hkv). simpl in Hkv.
  destruct (JSON_roundtrip v) as [w|] eqn:E; [|done].
  injection Hkv as <-. by exists v.
Qed.

Lemma normalized_scalar w :
  (exists v, JSON_roundtrip v = Some w) ->
  is_string (normalized w) = true \/ is_finite_number (normalized w) = true.
Proof.
  intros [v Hv]. destruct (JSON_roundtrip_shape v w Hv) as [Hu Hfin].
  unfold normalized.
  destruct (is_string w) eqn:Es; simpl; [by left|].
  destruct (is_number w) eqn:En; simpl; [right; by apply Hfin|].
  destruct (JSON_stringify w) eqn:Et; simpl; [by left|].
  by apply JSON_stringify_None in Et.
Qed.

Lemma normalized_fixed w :
  is_string w = true \/ is_finite_number w = true -> normalized w = w.
Proof.
  unfold normalized. destruct w as [ | | | [] | | | ]; simpl; try done;
    by intros [?|?].
Qed.

(** X15.  Normalizing twice is normalizing once: on a property map with
    distinct keys the result of [stringifyValues] is a property map that
    [stringifyValues] returns unchanged. *)
Theorem stringifyValues_idempotent (props : list (string * JsVal)) :
  NoDup (map fst props) ->
  exists out : list (string * JsVal),
    stringifyValues (JObj props) = Normal (JObj out) /\
    stringifyValues (JObj out) = Normal (JObj out).
Proof.
  intros Hnd.
  set (out := map (fun kv => (fst kv, normalized (snd kv))) (clone_fields props)).
  exists out. split; [by apply stringifyValues_object|].
  assert (Hall : Forall (fun kv => is_string (snd kv) = true
                                   \/ is_finite_number (snd kv) = true) out).
  { apply Forall_forall. intros kv Hin. unfold out in Hin.
    apply list_elem_of_fmap in Hin as (kv' & -> & Hin'). simpl.
    apply normalized_scalar. by eapply clone_fields_values. }
  assert (Hkeys : NoDup (map fst out)).
  { unfold out. rewrite map_map. simpl. by apply clone_fields_NoDup. }
  rewrite (stringifyValues_object out Hkeys). do 2 f_equal.
  clear Hkeys. induction Hall as [|[k w] rest Hw Hrest IH]; [done|].
  unfold clone_fields. simpl. fold (clone_fields rest).
  simpl in Hw. rewrite (JSON_roundtrip_scalar w Hw). simpl.
  rewrite (normalized_fixed w Hw). f_equal. exact IH.
Qed.















(** X22.  Loading an integration adopts it with the loaded flag reset;
    its step array comes out without holes, the steps present in their
    order, and tags and the other fields are untouched.  The
    [integration-updated] command that follows sets the flag and nothing
    else. *)
Theorem load_gives_dense_flow (s : CurrentFlow) (d : Integration) :
  exists (s1 : CurrentFlow) (d1 : Integration),
    set_integration (Some d) s = (Normal tt, s1) /\
    _integration s1 = Some d1 /\
    _loaded s1 = false /\
    steps_of d1 = map Some (Arr.present (steps_of d)) /\
    dense (steps_of d1) /\
    tags d1 = tags d /\ fields d1 = fields d /\
    heap s1 = heap s /\ store s1 = store s /\
    handleEvent IntegrationUpdated s1 = (Normal tt, set_loaded true s1).
Proof.
  assert (Hdense : forall l : list Step, dense (map Some l)).
  { intros l. unfold dense. apply Forall_fmap, Forall_forall. intros x _.
    by eexists. }
  assert (Hfilter : forall arr : JsArray Step,
             Arr.filter (fun _ => true) arr = map Some (Arr.present arr)).
  { intros arr. unfold Arr.filter. f_equal.
    induction (Arr.present arr) as [|x l IH]; simpl; [done|]. by rewrite IH. }
  unfold set_integration. unfold steps_of.
  destruct (steps d) as [[|slot arr]|] eqn:E.
  - exists {| _integration := Some d; _loaded := false; heap := heap s;
              store := store s |}, d.
    rewrite E. simpl. repeat split. apply (Hdense []).
  - exists {| _integration :=
                Some (with_steps (Some (Arr.filter (fun _ => true) (slot :: arr))) d);
              _loaded := false; heap := heap s; store := store s |},
      (with_steps (Some (Arr.filter (fun _ => true) (slot :: arr))) d).
    simpl. rewrite (Hfilter (slot :: arr)). repeat split. apply Hdense.
  - exists {| _integration := Some d; _loaded := false; heap := heap s;
              store := store s |}, d.
    rewrite E. simpl. repeat split. apply (Hdense []).
Qed.

(* ================================================================== *)
(** * Further properties: validity and the catalog *)
(* ================================================================== *)

(** X23.  After [integration-set-property] has set [name] to a string,
    [isValid()] returns the length of the name when the name is not
    empty and the empty name itself otherwise, so its result is truthy
    exactly for a non-empty name.  With no integration [isValid()] throws
    a TypeError. *)
Theorem isValid_after_naming (s : CurrentFlow) (d : Integration) (n : string) :
  _integration s = Some d ->
  exists (s1 : CurrentFlow) (r : JsVal),
    handleEvent (IntegrationSetProperty (AssignField "name" (JStr n)) None) s
    = (Normal tt, s1) /\
    fst (isValid s1) = Normal r /\
    r = (if String.eqb n "" then JStr ""
         else JNum (Finite (Z.of_nat (String.length n)))) /\
    (truthy r = true <-> n <> "") /\
    (forall loaded h q, exists msg,
       fst (isValid (unloaded loaded h q)) = Throw (TypeError msg)).
Proof.
  intros H.
  set (s1 := set_owned (with_field "name" (JStr n) d) s).
  assert (Hname : integration_name s1 = (Normal (JStr n), s1)).
  { unfold integration_name, get_integration, read, deref. run.
    by rewrite obj_get_set. }
  exists s1, (if String.eqb n "" then JStr ""
              else JNum (Finite (Z.of_nat (String.length n)))).
  split. { unfold handleEvent. run. by rewrite H. }
  split.
  { unfold isValid, mbind, M_bind, bind. rewrite Hname.
    change (truthy (JStr n)) with (negb (String.eqb n "")).
    destruct (String.eqb_spec n "") as [->|Hne]; [done|].
    cbn [negb]. by rewrite Hname. }
  split; [done|]. split.
  - destruct (String.eqb_spec n "") as [->|Hne]; simpl; [by split|].
    split; [done|]. intros _. destruct n; [done|]. by vm_compute.
  - intros loaded h q. eexists. reflexivity.
Qed.

(** X24.  [getStepConfig(kind)] returns the first entry of the catalog
    with that kind, and nothing when no entry has it; [getStepName] and
    [getStepDescription] then give the name and the description of that
    entry, and fall back to the kind itself and to the empty string. *)
Theorem getStepConfig_spec (this : StepStore.t) (kind : string) :
  match StepStore.getStepConfig this kind with
  | Some entry =>
      stepKind (StepStore.base entry) = Some kind /\
      StepStore.getStepName this kind = StepStore.name entry /\
      StepStore.getStepDescription this kind = StepStore.description entry /\
      exists (i : nat),
        StepStore.steps this !! i = Some entry /\
        forall (j : nat) other, (j < i)%nat ->
          StepStore.steps this !! j = Some other ->
          stepKind (StepStore.base other) <> Some kind
  | None =>
      (forall other, other ∈ StepStore.steps this ->
                     stepKind (StepStore.base other) <> Some kind) /\
      StepStore.getStepName this kind = kind /\
      StepStore.getStepDescription this kind = ""
  end.
Proof.
  unfold StepStore.getStepName, StepStore.getStepDescription,
    StepStore.getStepConfig.
  destruct this as [entries]. simpl.
  induction entries as [|e entries IH]; simpl.
  - split; [|done]. intros other Hin. by apply elem_of_nil in Hin.
  - destruct (StepStore.has_kind kind e) eqn:Hk;
      unfold StepStore.has_kind in Hk;
      [apply bool_decide_eq_true in Hk|apply bool_decide_eq_false in Hk].
    + split; [done|]. split; [done|]. split; [done|].
      exists 0%nat. split; [done|]. intros j other Hj. lia.
    + destruct (find (StepStore.has_kind kind) entries) as [entry|].
      * destruct IH as (Hkind & _ & _ & i & Hi & Hfirst).
        split; [done|]. split; [done|]. split; [done|].
        exists (S i). split; [done|]. intros [|j] other Hj Ho.
        -- simpl in Ho. by injection Ho as <-.
        -- simpl in Ho. apply (Hfirst j other); [lia|done].
      * destruct IH as (Hnone & _ & _). split; [|done].
        intros other Hin. apply elem_of_cons in Hin as [->|Hin]; [done|].
        by apply Hnone.
Qed.

(** X25.  In the catalog the service starts with, every entry is found
    again under its own kind, so the kinds are pairwise distinct; a step
    that [isCustomStep] accepts has a kind of the catalog; and the Data
    Mapper entry is the only one with a visibility predicate. *)
Theorem catalog_registry :
  (forall entry, entry ∈ StepStore.getSteps StepStore.new ->
     exists kind, stepKind (StepStore.base entry) = Some kind /\
                  StepStore.getStepConfig StepStore.new kind = Some entry) /\
  (forall step, StepStore.isCustomStep step = true ->
     exists kind entry, stepKind step = Some kind /\
                        StepStore.getStepConfig StepStore.new kind = Some entry) /\
  (forall entry, entry ∈ StepStore.getSteps StepStore.new ->
     is_Some (StepStore.visible entry) <->
     stepKind (StepStore.base entry) = Some DATA_MAPPER).
Proof.
  split; [|split].
  - intros entry Hin. unfold StepStore.getSteps, StepStore.new in Hin.
    simpl in Hin. repeat (apply elem_of_cons in Hin as [->|Hin]);
      [eexists; split; reflexivity .. |by apply elem_of_nil in Hin].
  - intros step Hc. unfold StepStore.isCustomStep in Hc.
    apply orb_true_iff in Hc as [Hc|Hc]; apply bool_decide_eq_true in Hc;
      eexists _, _; (split; [exact Hc|reflexivity]).
  - intros entry Hin. unfold StepStore.getSteps, StepStore.new in Hin.
    simpl in Hin. repeat (apply elem_of_cons in Hin as [->|Hin]);
      [simpl; split; [done|by eexists] | simpl; split; [by intros []|done] ..
      |by apply elem_of_nil in Hin].
Qed.

(* ================================================================== *)
(** * The further properties at sample inputs *)
(* ================================================================== *)

(** Settles a hypothesis of a theorem at a sample input by evaluation. *)
Ltac hyp_at_sample :=
  first [ reflexivity
        | (simpl; lia)
        | (apply (bool_decide_unpack _); vm_compute; reflexivity)
        | (unfold dense; simpl; repeat constructor; by eexists)
        | (unfold bounded_by_endpoints; simpl;
           repeat split; [lia | by eexists | by eexists])
        | (simpl; by left) ].

(** [previous_subsequent_partition] at a sample input. *)
Lemma previous_subsequent_partition_witness :
  _integration (editing sample_flow) = Some sample_flow /\
  (exists prev subs : JsArray Step,
     fst (getPreviousSteps 1 (editing sample_flow)) = Normal (Some prev) /\
     fst (getSubsequentSteps 1 (editing sample_flow)) = Normal (Some subs) /\
     prev ++ subs = steps_of sample_flow /\
     (0 <= 1 <= Z.of_nat (length (steps_of sample_flow)) ->
        length prev = Z.to_nat 1 /\
        subs !! 0%nat = steps_of sample_flow !! Z.to_nat 1)).
Proof.
  assert (H0 : _integration (editing sample_flow) = Some sample_flow) by hyp_at_sample.
  split; [exact H0|].
  exact (previous_subsequent_partition (editing sample_flow) sample_flow 1 H0).
Defined.

(** [connections_partition] at a sample input. *)
Lemma connections_partition_witness :
  _integration (editing sample_flow) = Some sample_flow /\
  (exists prev subs every : JsArray Step,
     fst (getPreviousConnections 1 (editing sample_flow)) = Normal (Some prev) /\
     fst (getSubsequentConnections 1 (editing sample_flow)) = Normal (Some subs) /\
     fst (getSubsequentConnections 0 (editing sample_flow)) = Normal (Some every) /\
     prev ++ subs = every /\
     (forall slot, slot ∈ every ->
        exists st, slot = Some st /\ Some st ∈ steps_of sample_flow /\
                   stepKind st = Some "endpoint")).
Proof.
  assert (H0 : _integration (editing sample_flow) = Some sample_flow) by hyp_at_sample.
  split; [exact H0|].
  exact (connections_partition (editing sample_flow) sample_flow 1 H0).
Defined.

(** [getSubsequentConnection_nearest] at a sample input. *)
Lemma getSubsequentConnection_nearest_witness :
  _integration (editing sample_flow) = Some sample_flow /\
  0 <= 1 /\
  (exists r : option Step,
     fst (getSubsequentConnection 1 (editing sample_flow)) = Normal r /\
     match r with
     | Some st =>
         is_endpoint st = true /\
         exists j : nat, (Z.to_nat 1 <= j)%nat /\
           steps_of sample_flow !! j = Some (Some st) /\
           forall (i : nat) st', (Z.to_nat 1 <= i < j)%nat ->
             steps_of sample_flow !! i = Some (Some st') -> is_endpoint st' = false
     | None =>
         forall (j : nat) st', (Z.to_nat 1 <= j)%nat ->
           steps_of sample_flow !! j = Some (Some st') -> is_endpoint st' = false
     end).
Proof.
  assert (H0 : _integration (editing sample_flow) = Some sample_flow) by hyp_at_sample.
  assert (H1 : 0 <= 1) by hyp_at_sample.
  split; [exact H0|].
  split; [exact H1|].
  exact (getSubsequentConnection_nearest (editing sample_flow) sample_flow 1 H0 H1).
Defined.

(** [getPreviousConnection_nearest] at a sample input. *)
Lemma getPreviousConnection_nearest_witness :
  _integration (editing sample_flow) = Some sample_flow /\
  0 <= 2 /\
  (exists r : option Step,
     fst (getPreviousConnection 2 (editing sample_flow)) = Normal r /\
     match r with
     | Some st =>
         is_endpoint st = true /\
         exists j : nat, (j < Z.to_nat 2)%nat /\
           steps_of sample_flow !! j = Some (Some st) /\
           forall (i : nat) st', (j < i < Z.to_nat 2)%nat ->
             steps_of sample_flow !! i = Some (Some st') -> is_endpoint st' = false
     | None =>
         forall (j : nat) st', (j < Z.to_nat 2)%nat ->
           steps_of sample_flow !! j = Some (Some st') -> is_endpoint st' = false
     end).
Proof.
  assert (H0 : _integration (editing sample_flow) = Some sample_flow) by hyp_at_sample.
  assert (H1 : 0 <= 2) by hyp_at_sample.
  split; [exact H0|].
  split; [exact H1|].
  exact (getPreviousConnection_nearest (editing sample_flow) sample_flow 2 H0 H1).
Defined.

(** [flow_decomposition] at a sample input. *)
Lemma flow_decomposition_witness :
  _integration (editing sample_flow) = Some sample_flow /\
  (2 <= length (steps_of sample_flow))%nat /\
  (exists (first last : option Step) (middle : JsArray Step),
     fst (getStartStep (editing sample_flow)) = Normal first /\
     fst (getEndStep (editing sample_flow)) = Normal last /\
     fst (getMiddleSteps (editing sample_flow)) = Normal middle /\
     steps_of sample_flow = first :: middle ++ [last]).
Proof.
  assert (H0 : _integration (editing sample_flow) = Some sample_flow) by hyp_at_sample.
  assert (H1 : (2 <= length (steps_of sample_flow))%nat) by hyp_at_sample.
  split; [exact H0|].
  split; [exact H1|].
  exact (flow_decomposition (editing sample_flow) sample_flow H0 H1).
Defined.

(** [short_flow_has_no_end_step] at a sample input. *)
Lemma short_flow_has_no_end_step_witness :
  _integration (editing single_step_flow) = Some single_step_flow /\
  (length (steps_of single_step_flow) <= 1)%nat /\
  (fst (getEndStep (editing single_step_flow)) = Normal None /\
   fst (getEndConnection (editing single_step_flow)) = Normal None /\
   fst (getMiddleSteps (editing single_step_flow)) = Normal [] /\
   fst (getStartStep (editing single_step_flow)) = Normal (mjoin (steps_of single_step_flow !! 0%nat))).
Proof.
  assert (H0 : _integration (editing single_step_flow) = Some single_step_flow) by hyp_at_sample.
  assert (H1 : (length (steps_of single_step_flow) <= 1)%nat) by hyp_at_sample.
  split; [exact H0|].
  split; [exact H1|].
  exact (short_flow_has_no_end_step (editing single_step_flow) single_step_flow H0 H1).
Defined.

(** [getMiddlePosition_between] at a sample input. *)
Lemma getMiddlePosition_between_witness :
  _integration (editing sample_flow) = Some sample_flow /\
  (exists middle last : Z,
     fst (getMiddlePosition (editing sample_flow)) = Normal (Some middle) /\
     fst (getLastPosition (editing sample_flow)) = Normal (Some last) /\
     0 < middle <= last /\
     last <= 2 * middle <= last + 1 /\
     ((3 <= length (steps_of sample_flow))%nat -> middle < last)).
Proof.
  assert (H0 : _integration (editing sample_flow) = Some sample_flow) by hyp_at_sample.
  split; [exact H0|].
  exact (getMiddlePosition_between (editing sample_flow) sample_flow H0).
Defined.

(** [atEnd_spec] at a sample input. *)
Lemma atEnd_spec_witness :
  _integration (editing sample_flow) = Some sample_flow /\
  (exists e a a0 : bool,
     fst (isEmpty (editing sample_flow)) = Normal e /\
     fst (atEnd 1 (editing sample_flow)) = Normal a /\
     fst (atEnd 0 (editing sample_flow)) = Normal a0 /\
     (a = true <-> Z.of_nat (length (steps_of sample_flow)) <= 1) /\
     (e = true <-> steps_of sample_flow = []) /\
     e = a0 /\
     (a = true -> fst (getStep (Some 1) (editing sample_flow)) = Normal None) /\
     (a = false -> 0 <= 1 ->
        exists slot, steps_of sample_flow !! Z.to_nat 1 = Some slot /\
                     fst (getStep (Some 1) (editing sample_flow)) = Normal slot)).
Proof.
  assert (H0 : _integration (editing sample_flow) = Some sample_flow) by hyp_at_sample.
  split; [exact H0|].
  exact (atEnd_spec (editing sample_flow) sample_flow 1 H0).
Defined.


(** [commands_throw_unloaded] at a sample input. *)
Lemma commands_throw_unloaded_witness :
  needs_integration (IntegrationInsertStep 0 None) = true /\
  (exists e : JsError,
     handleEvent (IntegrationInsertStep 0 None) (unloaded false [] []) = (Throw e, unloaded false [] []) /\
     (match (IntegrationInsertStep 0 None), e with
      | IntegrationSave _ _, SyntaxError _ => True
      | IntegrationSave _ _, _ => False
      | _, TypeError _ => True
      | _, _ => False
      end)).
Proof.
  assert (H0 : needs_integration (IntegrationInsertStep 0 None) = true) by hyp_at_sample.
  split; [exact H0|].
  exact (commands_throw_unloaded (IntegrationInsertStep 0 None) false [] [] H0).
Defined.

(** [insert_then_remove] at a sample input. *)
Lemma insert_then_remove_witness :
  _integration (editing sample_flow) = Some sample_flow /\
  0 <= 0 < Z.of_nat (length (steps_of sample_flow)) /\
  (exists s1 : CurrentFlow,
     handleEvent (IntegrationInsertStep 0 None) (editing sample_flow) = (Normal tt, s1) /\
     (0 + 1 < Z.of_nat (length (steps_of sample_flow)) ->
        handleEvent (IntegrationRemoveStep (0 + 1) None) s1
        = (Normal tt, set_owned (with_steps (Some (steps_of sample_flow)) sample_flow) (editing sample_flow))) /\
     (0 + 1 = Z.of_nat (length (steps_of sample_flow)) ->
        handleEvent (IntegrationRemoveStep (0 + 1) None) s1
        = (Normal tt,
           set_owned
             (with_steps (Some (steps_of sample_flow ++ [Some blank_endpoint])) sample_flow) (editing sample_flow)))).
Proof.
  assert (H0 : _integration (editing sample_flow) = Some sample_flow) by hyp_at_sample.
  assert (H1 : 0 <= 0 < Z.of_nat (length (steps_of sample_flow))) by hyp_at_sample.
  split; [exact H0|].
  split; [exact H1|].
  exact (insert_then_remove (editing sample_flow) sample_flow 0 H0 H1).
Defined.

(** [insert_counts_connections] at a sample input. *)
Lemma insert_counts_connections_witness :
  _integration (editing sample_flow) = Some sample_flow /\
  (exists (conns conns1 conns2 : JsArray Step) (s1 s2 : CurrentFlow),
     fst (getSubsequentConnections 0 (editing sample_flow)) = Normal (Some conns) /\
     handleEvent (IntegrationInsertConnection 0 None) (editing sample_flow) = (Normal tt, s1) /\
     fst (getSubsequentConnections 0 s1) = Normal (Some conns1) /\
     length conns1 = S (length conns) /\
     handleEvent (IntegrationInsertStep 0 None) (editing sample_flow) = (Normal tt, s2) /\
     fst (getSubsequentConnections 0 s2) = Normal (Some conns2) /\
     conns2 = conns).
Proof.
  assert (H0 : _integration (editing sample_flow) = Some sample_flow) by hyp_at_sample.
  split; [exact H0|].
  exact (insert_counts_connections (editing sample_flow) sample_flow 0 H0).
Defined.

(** [save_completes_iff] at a sample input. *)
Lemma save_completes_iff_witness :
  _integration (editing sample_flow) = Some sample_flow /\
  ((fst (handleEvent (IntegrationSave None None) (editing sample_flow)) = Normal tt
    <-> forall st, Some st ∈ steps_of sample_flow -> is_endpoint st = true ->
                   is_Some (connection st))
   /\ (fst (handleEvent (IntegrationSave None None) (editing sample_flow)) = Normal tt ->
       length (store (snd (handleEvent (IntegrationSave None None) (editing sample_flow))))
       = S (length (store (editing sample_flow))))
   /\ (fst (handleEvent (IntegrationSave None None) (editing sample_flow)) <> Normal tt ->
       store (snd (handleEvent (IntegrationSave None None) (editing sample_flow))) = store (editing sample_flow))).
Proof.
  assert (H0 : _integration (editing sample_flow) = Some sample_flow) by hyp_at_sample.
  split; [exact H0|].
  exact (save_completes_iff (editing sample_flow) sample_flow None None H0).
Defined.

(** [endpoints_at_both_ends_kept] at a sample input. *)
Lemma endpoints_at_both_ends_kept_witness :
  _integration (editing sample_flow) = Some sample_flow /\
  bounded_by_endpoints (steps_of sample_flow) /\
  ((forall position onSave, 0 <= position ->
      exists arr' : JsArray Step,
        handleEvent (IntegrationRemoveStep position onSave) (editing sample_flow)
        = maybeDoAction onSave (set_owned (with_steps (Some arr') sample_flow) (editing sample_flow)) /\
        bounded_by_endpoints arr') /\
   (forall position onSave,
      exists arr' : JsArray Step,
        handleEvent (IntegrationInsertConnection position onSave) (editing sample_flow)
        = maybeDoAction onSave (set_owned (with_steps (Some arr') sample_flow) (editing sample_flow)) /\
        bounded_by_endpoints arr') /\
   (forall position onSave,
      0 <= position < Z.of_nat (length (steps_of sample_flow)) - 1 ->
      exists arr' : JsArray Step,
        handleEvent (IntegrationInsertStep position onSave) (editing sample_flow)
        = maybeDoAction onSave (set_owned (with_steps (Some arr') sample_flow) (editing sample_flow)) /\
        bounded_by_endpoints arr')).
Proof.
  assert (H0 : _integration (editing sample_flow) = Some sample_flow) by hyp_at_sample.
  assert (H1 : bounded_by_endpoints (steps_of sample_flow)) by hyp_at_sample.
  split; [exact H0|].
  split; [exact H1|].
  exact (endpoints_at_both_ends_kept (editing sample_flow) sample_flow H0 H1).
Defined.

(** [stringifyValues_idempotent] at a sample input. *)
Lemma stringifyValues_idempotent_witness :
  NoDup (map fst sample_property_map) /\
  (exists out : list (string * JsVal),
     stringifyValues (JObj sample_property_map) = Normal (JObj out) /\
     stringifyValues (JObj out) = Normal (JObj out)).
Proof.
  assert (H0 : NoDup (map fst sample_property_map)) by hyp_at_sample.
  split; [exact H0|].
  exact (stringifyValues_idempotent sample_property_map H0).
Defined.







(** [isValid_after_naming] at a sample input. *)
Lemma isValid_after_naming_witness :
  _integration (editing sample_flow) = Some sample_flow /\
  (exists (s1 : CurrentFlow) (r : JsVal),
     handleEvent (IntegrationSetProperty (AssignField "name" (JStr "orders")) None) (editing sample_flow)
     = (Normal tt, s1) /\
     fst (isValid s1) = Normal r /\
     r = (if String.eqb "orders" "" then JStr ""
          else JNum (Finite (Z.of_nat (String.length "orders")))) /\
     (truthy r = true <-> "orders" <> "") /\
     (forall loaded h q, exists msg,
        fst (isValid (unloaded loaded h q)) = Throw (TypeError msg))).
Proof.
  assert (H0 : _integration (editing sample_flow) = Some sample_flow) by hyp_at_sample.
  split; [exact H0|].
  exact (isValid_after_naming (editing sample_flow) sample_flow "orders" H0).
Defined.
